(** * multi-agent: the protocol adapter (pkg/localllm) and the intent
      classifier (package bert)

    Shallow embedding of the Go sources and the properties proved of them.

    Conventions of the embedding.
    - A Go [string] is a byte string, here [String.string].
    - A Go slice is a [list]; the nil slice is [[]].  Every [[]toolCall]
      the adapter builds is either nil or non-empty, so [ToolCalls == nil]
      is [ToolCalls = []].
    - A Go [map[string]interface{}] is an association list that enumerates
      the entries in the order in which a [range] statement visits them;
      a write [out[k] = v] is [mapSet].  Go does not fix that order, so
      statements about maps quantify over the enumeration.  The nil map
      and the empty map are both [[]]: they read alike and differ only in
      what [json.Marshal] writes for them, on which no statement depends.
    - [float64] scores are modelled as exact rationals [Q].  Every score the
      classifier computes is a multiple of 1/2 divided by 23, 18 or 8 plus
      multiples of 1/2, so for queries of any realistic length the
      comparisons between scores and with the threshold 0.1 come out the
      same in both arithmetics.
    - Functions of Go's standard library that the code calls
      ([strings.ToLower], [strings.Fields], [json.Marshal],
      [json.Unmarshal]) are Section variables: the theorems hold for every
      implementation of them.  ASCII instances are given to run the code on
      concrete inputs. *)

From Stdlib Require Import String Ascii List Bool Arith Lia ZArith QArith
  Qround Lqa Permutation.
Import ListNotations.

Open Scope string_scope.
Open Scope list_scope.

(* ===================================================================== *)
(** ** Package strings *)
(* ===================================================================== *)

Module strings.

(** [strings.HasPrefix(s, prefix)]. *)
Definition HasPrefix (s p : string) : bool := String.prefix p s.

(** [strings.Contains(s, substr)]: [substr] occurs in [s] as a run of
    consecutive bytes; the empty string occurs everywhere. *)
Fixpoint Contains (s substr : string) : bool :=
  if String.prefix substr s then true
  else match s with
       | EmptyString => false
       | String _ s' => Contains s' substr
       end.

Definition isUpper (c : ascii) : bool :=
  (65 <=? nat_of_ascii c)%nat && (nat_of_ascii c <=? 90)%nat.

Definition lowerByte (c : ascii) : ascii :=
  if isUpper c then ascii_of_nat (nat_of_ascii c + 32) else c.

(** [strings.ToLower] on ASCII text: bytes 'A'..'Z' are mapped to
    'a'..'z', every other byte is kept. *)
Fixpoint asciiToLower (s : string) : string :=
  match s with
  | EmptyString => EmptyString
  | String c s' => String (lowerByte c) (asciiToLower s')
  end.

(** The ASCII white space of [strings.Fields]: tab, newline, vertical tab,
    form feed, carriage return and space. *)
Definition isSpace (c : ascii) : bool :=
  let n := nat_of_ascii c in
  ((9 <=? n)%nat && (n <=? 13)%nat) || (n =? 32)%nat.

Fixpoint fieldsFrom (cur : string) (s : string) : list string :=
  match s with
  | EmptyString => if (cur =? "")%string then [] else [cur]
  | String c s' =>
      if isSpace c
      then (if (cur =? "")%string then fieldsFrom "" s'
            else cur :: fieldsFrom "" s')
      else fieldsFrom (cur ++ String c "")%string s'
  end.

(** [strings.Fields] on ASCII text: the maximal runs of non-space bytes. *)
Definition asciiFields (s : string) : list string := fieldsFrom "" s.

(** [strings.HasSuffix(s, suffix)]:
    [len(s) >= len(suffix) && s[len(s)-len(suffix):] == suffix]. *)
Definition HasSuffix (s suffix : string) : bool :=
  (String.length suffix <=? String.length s)%nat
  && (substring (String.length s - String.length suffix)
        (String.length suffix) s =? suffix)%string.

(** [strings.TrimSuffix(s, suffix)]: [s[:len(s)-len(suffix)]] when [s] has
    the suffix, [s] otherwise. *)
Definition TrimSuffix (s suffix : string) : string :=
  if HasSuffix s suffix
  then substring 0 (String.length s - String.length suffix) s
  else s.

End strings.

(* ===================================================================== *)
(** ** Dynamically typed JSON values ([interface{}] after decoding) *)
(* ===================================================================== *)

Module JSON.

Unset Elimination Schemes.
Inductive json : Type :=
| JNull
| JBool (b : bool)
| JNumber (n : Z)
| JString (s : string)
| JArray (l : list json)
| JObject (m : list (string * json)).
Set Elimination Schemes.

(** A [map[string]interface{}], entries in iteration order.  (Numbers are
    payload that the adapter never inspects; integers stand for them.) *)
Definition object : Type := list (string * json).

(** [m[k]]: the binding of [k], if any. *)
Fixpoint mapGet (m : object) (k : string) : option json :=
  match m with
  | [] => None
  | (k', v) :: rest => if (k' =? k)%string then Some v else mapGet rest k
  end.

(** [m[k] = v]: overwrite the binding of [k] or add one. *)
Fixpoint mapSet (m : object) (k : string) (v : json) : object :=
  match m with
  | [] => [(k, v)]
  | (k', v') :: rest =>
      if (k' =? k)%string then (k, v) :: rest else (k', v') :: mapSet rest k v
  end.

Definition keys (m : object) : list string := map fst m.

(** The binding of the last visited entry of [m] whose key satisfies [p]. *)
Fixpoint lastBinding (p : string -> bool) (m : object) : option json :=
  match m with
  | [] => None
  | (k, v) :: rest =>
      match lastBinding p rest with
      | Some v' => Some v'
      | None => if p k then Some v else None
      end
  end.

Fixpoint joinWith (sep : string) (l : list string) : string :=
  match l with
  | [] => ""
  | [x] => x
  | x :: rest => (x ++ sep ++ joinWith sep rest)%string
  end.

Definition dquote : string := String (ascii_of_nat 34) "".

Definition quote (s : string) : string := (dquote ++ s ++ dquote)%string.

Fixpoint digits (fuel n : nat) (acc : string) : string :=
  match fuel with
  | O => acc
  | S fuel' =>
      let acc' := String (ascii_of_nat (48 + n mod 10)) acc in
      if (n <? 10)%nat then acc' else digits fuel' (n / 10) acc'
  end.

Definition decimal (z : Z) : string :=
  let n := Z.to_nat (Z.abs z) in
  ((if (z <? 0)%Z then "-" else "") ++ digits (S n) n "")%string.

(** A compact JSON encoder, an instance of [json.Marshal] for running the
    adapter on concrete conversations (no escaping: for strings without
    quotes, backslashes and control bytes). *)
Fixpoint encode (v : json) : string :=
  match v with
  | JNull => "null"
  | JBool true => "true"
  | JBool false => "false"
  | JNumber n => decimal n
  | JString s => quote s
  | JArray l => ("[" ++ joinWith "," (map encode l) ++ "]")%string
  | JObject m =>
      ("{" ++ joinWith ","
         (map (fun kv => quote (fst kv) ++ ":" ++ encode (snd kv)) m)
       ++ "}")%string
  end.

End JSON.

(* ===================================================================== *)
(** ** Package genai and package model: the conversation the adapter reads *)
(* ===================================================================== *)

Module genai.
Import JSON.

Record FunctionCall : Type := {
  FC_ID : string;
  FC_Name : string;
  FC_Args : object
}.

Record FunctionResponse : Type := {
  FR_ID : string;
  FR_Name : string;
  FR_Response : object
}.

(** A [*genai.Part]; an unset pointer field is [None]. *)
Record Part : Type := {
  Text : string;
  PartFunctionCall : option FunctionCall;
  PartFunctionResponse : option FunctionResponse
}.

Record Content : Type := {
  Role : string;
  Parts : list Part
}.

Record FunctionDeclaration : Type := {
  FD_Name : string;
  FD_Description : string;
  (** the schema as the JSON object that [json.Marshal] writes; [None]
      for a nil [*genai.Schema] *)
  FD_Parameters : option object
}.

Record Tool : Type := {
  FunctionDeclarations : list FunctionDeclaration
}.

Record GenerateContentConfig : Type := {
  SystemInstruction : option Content;
  Temperature : option Q;
  Tools : list Tool
}.

Definition NewPartFromText (text : string) : Part :=
  {| Text := text; PartFunctionCall := None; PartFunctionResponse := None |}.

Definition NewPartFromFunctionCall (name : string) (args : object) : Part :=
  {| Text := "";
     PartFunctionCall := Some {| FC_ID := ""; FC_Name := name; FC_Args := args |};
     PartFunctionResponse := None |}.

End genai.

Module model.

Record LLMRequest : Type := {
  Contents : list genai.Content;
  Config : option genai.GenerateContentConfig
}.

Record UsageMetadata : Type := {
  PromptTokenCount : Z;
  CandidatesTokenCount : Z;
  TotalTokenCount : Z
}.

(** [&model.LLMResponse{}] is [{| Content := None; UsageMetadata := None |}]. *)
Record LLMResponse : Type := {
  Content : option genai.Content;
  Usage : option UsageMetadata
}.

End model.

(* ===================================================================== *)
(** ** Package localllm: wire types and request construction *)
(* ===================================================================== *)

Module localllm.
Import JSON.

Record functionCall : Type := {
  Name : string;
  Arguments : string
}.

Record toolCall : Type := {
  ID : string;
  Type_ : string;
  Function_ : functionCall
}.

Record chatMessage : Type := {
  Role : string;
  Content : string;
  ToolCalls : list toolCall;
  ToolCallID : string
}.



Record choice : Type := {
  Index : Z;
  Message : chatMessage;
  FinishReason : string
}.

Record usage : Type := {
  PromptTokens : Z;
  CompletionTokens : Z;
  TotalTokens : Z
}.

Record chatResponse : Type := {
  ResponseID : string;
  Choices : list choice;
  Usage : usage
}.

(** The anonymous struct of [funcResponses]. *)
Record funcResponse : Type := {
  id : string;
  name : string;
  response : string
}.

(** What the loop over the parts of one turn accumulates. *)
Record turnParts : Type := {
  textContent : string;
  funcCalls : list toolCall;
  funcResponses : list funcResponse
}.

Definition newline : string := String (ascii_of_nat 10) "".

Definition isNil {A : Type} (l : list A) : bool :=
  match l with [] => true | _ :: _ => false end.

(** [messages[:len-1]] and [messages[len-1]] when [len(messages) > 0]. *)
Definition splitLast {A : Type} (l : list A) : option (list A * A) :=
  match rev l with
  | [] => None
  | x :: front => Some (rev front, x)
  end.

Definition lastMessage (messages : list chatMessage) : option chatMessage :=
  option_map snd (splitLast messages).

(** The role, content, tool calls and tool-call id of a text message. *)
Definition textMessage (role text : string) : chatMessage :=
  {| Role := role; Content := text; ToolCalls := []; ToolCallID := "" |}.

(** The merge test of line 249. *)
Definition canMerge (lastMsg : chatMessage) (role : string) : bool :=
  (Role lastMsg =? role)%string && isNil (ToolCalls lastMsg)
  && (ToolCallID lastMsg =? "")%string.

(** [lastMsg.Content += newline + textContent]. *)
Definition appendContent (lastMsg : chatMessage) (text : string) : chatMessage :=
  {| Role := Role lastMsg;
     Content := (Content lastMsg ++ newline ++ text)%string;
     ToolCalls := ToolCalls lastMsg;
     ToolCallID := ToolCallID lastMsg |}.

(** Lines 242-260: merge the text into the last message or append a new
    message. *)
Definition addText (messages : list chatMessage) (role text : string)
  : list chatMessage :=
  match splitLast messages with
  | Some (front, lastMsg) =>
      if canMerge lastMsg role
      then front ++ [appendContent lastMsg text]
      else messages ++ [textMessage role text]
  | None => messages ++ [textMessage role text]
  end.

Definition toolMessage (fr : funcResponse) : chatMessage :=
  {| Role := "tool"; Content := response fr; ToolCalls := [];
     ToolCallID := id fr |}.

Definition wireRole (content : genai.Content) : string :=
  if (genai.Role content =? "model")%string then "assistant" else "user".

(** The text of a system instruction: its non-empty text parts joined. *)
Definition joinText (parts : list genai.Part) : string :=
  fold_left (fun acc part =>
               if (genai.Text part =? "")%string then acc
               else (acc ++ genai.Text part)%string) parts "".

Definition synthetic : chatMessage := textMessage "assistant" "Action completed.".

(** One iteration of the post-processing loop (lines 276-289). *)
Definition repairStep (finalMessages : list chatMessage) (msg : chatMessage)
  : list chatMessage :=
  let finalMessages' :=
    if (Role msg =? "user")%string && negb (isNil finalMessages) then
      match lastMessage finalMessages with
      | Some lastMsg =>
          if (Role lastMsg =? "tool")%string
          then finalMessages ++ [synthetic] else finalMessages
      | None => finalMessages
      end
    else finalMessages in
  finalMessages' ++ [msg].

Definition repair (messages : list chatMessage) : list chatMessage :=
  fold_left repairStep messages [].

Section Request.

(** [json.Marshal], with its error dropped as the code does. *)
Variable Marshal : json -> string.

(** One iteration of the loop over [content.Parts] (lines 202-231). *)
Definition scanPart (t : turnParts) (part : genai.Part) : turnParts :=
  let text :=
    if (genai.Text part =? "")%string then textContent t
    else (textContent t ++ genai.Text part)%string in
  let calls :=
    match genai.PartFunctionCall part with
    | Some fc =>
        funcCalls t ++
        [ {| ID := genai.FC_ID fc; Type_ := "function";
             Function_ := {| Name := genai.FC_Name fc;
                             Arguments := Marshal (JObject (genai.FC_Args fc)) |} |} ]
    | None => funcCalls t
    end in
  let responses :=
    match genai.PartFunctionResponse part with
    | Some fr =>
        funcResponses t ++
        [ {| id := genai.FR_ID fr; name := genai.FR_Name fr;
             response := Marshal (JObject (genai.FR_Response fr)) |} ]
    | None => funcResponses t
    end in
  {| textContent := text; funcCalls := calls; funcResponses := responses |}.

Definition scanParts (parts : list genai.Part) : turnParts :=
  fold_left scanPart parts
    {| textContent := ""; funcCalls := []; funcResponses := [] |}.

(** The system message, if the request configures a non-empty system
    instruction (lines 171-185). *)
Definition systemMessages (req : model.LLMRequest) : list chatMessage :=
  match model.Config req with
  | Some cfg =>
      match genai.SystemInstruction cfg with
      | Some instruction =>
          let sysText := joinText (genai.Parts instruction) in
          if (sysText =? "")%string then []
          else [ textMessage "system" sysText ]
      | None => []
      end
  | None => []
  end.

(** One iteration of the loop over [req.Contents] (lines 188-271). *)
Definition addContent (messages : list chatMessage) (content : genai.Content)
  : list chatMessage :=
  let role := wireRole content in
  let t := scanParts (genai.Parts content) in
  let messages' :=
    if negb (isNil (funcCalls t)) then
      messages ++ [ {| Role := "assistant"; Content := textContent t;
                       ToolCalls := funcCalls t; ToolCallID := "" |} ]
    else if negb (textContent t =? "")%string then
      addText messages role (textContent t)
    else messages in
  messages' ++ map toolMessage (funcResponses t).

(** The message list before post-processing. *)
Definition buildMessages (req : model.LLMRequest) : list chatMessage :=
  fold_left addContent (model.Contents req) (systemMessages req).

Definition convertToMessages (req : model.LLMRequest) : list chatMessage :=
  repair (buildMessages req).

End Request.

(* --------------------------------------------------------------------- *)
(** *** Tool schemas and response decoding *)
(* --------------------------------------------------------------------- *)

Section Schema.

(** [strings.ToLower]. *)
Variable ToLower : string -> string.

(** [fixSchemaMap] (lines 415-449), by recursion on the JSON value that
    holds the map.  The outer loop is [for k, v := range m] writing [out],
    the inner one [for pk, pv := range val] writing [newProps]. *)
Fixpoint fixSchemaValue (schema : json) : object :=
  match schema with
  | JObject m =>
      (fix rangeM (m : list (string * json)) (out : object) {struct m} : object :=
         match m with
         | [] => out
         | (k, v) :: rest =>
             let key := ToLower k in
             let out' :=
               match v with
               | JString val =>
                   if (key =? "type")%string
                   then mapSet out key (JString (ToLower val))
                   else mapSet out key (JString val)
               | JObject val =>
                   if (key =? "properties")%string then
                     mapSet out key
                       (JObject
                          ((fix rangeVal (val : list (string * json))
                                (newProps : object) {struct val} : object :=
                              match val with
                              | [] => newProps
                              | (pk, pv) :: rest' =>
                                  rangeVal rest'
                                    (match pv with
                                     | JObject _ =>
                                         mapSet newProps pk
                                           (JObject (fixSchemaValue pv))
                                     | _ => mapSet newProps pk pv
                                     end)
                              end) val []))
                   else mapSet out key (JObject (fixSchemaValue v))
               | _ => mapSet out key v
               end in
             rangeM rest out'
         end) m []
  | _ => []
  end.

Definition fixSchemaMap (m : object) : object := fixSchemaValue (JObject m).

(** [normalizeSchema] (lines 401-413).  [params] is the object that
    [json.Marshal] followed by [json.Unmarshal] makes of the
    [*genai.Schema]; both succeed on every schema. *)
Definition normalizeSchema (params : object) : json :=
  JObject (fixSchemaMap params).

Definition property (type description : string) : json :=
  JObject [("type", JString type); ("description", JString description)].

Definition knownToolSchemas (toolName : string) : option json :=
  if (toolName =? "query_database")%string then
    Some (JObject
      [("type", JString "object");
       ("properties", JObject
          [("sql", property "string" "The SQL query to execute");
           ("limit", property "integer"
                       "Maximum number of rows to return (default: 100)")]);
       ("required", JArray [JString "sql"])])
  else if (toolName =? "get_schema")%string then
    Some (JObject
      [("type", JString "object");
       ("properties", JObject
          [("table_name", property "string"
                            "The name of the table to get schema for")]);
       ("required", JArray [JString "table_name"])])
  else if (toolName =? "list_tables")%string then
    Some (JObject [("type", JString "object"); ("properties", JObject [])])
  else if (toolName =? "describe_database")%string then
    Some (JObject [("type", JString "object"); ("properties", JObject [])])
  else if (toolName =? "generate_chart")%string then
    Some (JObject
      [("type", JString "object");
       ("properties", JObject
          [("chart_type", property "string"
                            "Type of chart: bar, line, pie, scatter");
           ("title", property "string" "Chart title");
           ("data", property "string" "JSON string containing the chart data")]);
       ("required",
        JArray [JString "chart_type"; JString "title"; JString "data"])])
  else None.

Definition emptyParams : json :=
  JObject [("type", JString "object"); ("properties", JObject [])].

(** The parameters of one function declaration (lines 366-382). *)
Definition toolParams (fd : genai.FunctionDeclaration) : json :=
  match genai.FD_Parameters fd with
  | Some parameters => normalizeSchema parameters
  | None =>
      match knownToolSchemas (genai.FD_Name fd) with
      | Some schema => schema
      | None => emptyParams
      end
  end.


End Schema.

Section Decode.

(** [json.Unmarshal(text, &args)] on a nil [map[string]interface{}]: the
    map [args] after the call, and whether an error was returned. *)
Variable Unmarshal : string -> object * bool.

(** [json.NewDecoder(resp.Body).Decode(&chatResp)]. *)
Variable DecodeBody : string -> option chatResponse.

Definition toInt32 (n : Z) : Z :=
  ((n + 2147483648) mod 4294967296 - 2147483648)%Z.

(** Lines 466-467: the error of [json.Unmarshal] is dropped. *)
Definition decodeArguments (arguments : string) : object :=
  let (args, _) := Unmarshal arguments in args.

Definition convertToLLMResponse (chatResp : chatResponse) : model.LLMResponse :=
  match Choices chatResp with
  | [] => {| model.Content := None; model.Usage := None |}
  | choice :: _ =>
      let parts :=
        if (Content (Message choice) =? "")%string then []
        else [ genai.NewPartFromText (Content (Message choice)) ] in
      let parts :=
        fold_left
          (fun parts tc =>
             parts ++
             [ genai.NewPartFromFunctionCall (Name (Function_ tc))
                 (decodeArguments (Arguments (Function_ tc))) ])
          (ToolCalls (Message choice)) parts in
      {| model.Content := Some {| genai.Role := "model"; genai.Parts := parts |};
         model.Usage :=
           Some {| model.PromptTokenCount := toInt32 (PromptTokens (Usage chatResp));
                   model.CandidatesTokenCount :=
                     toInt32 (CompletionTokens (Usage chatResp));
                   model.TotalTokenCount := toInt32 (TotalTokens (Usage chatResp)) |} |}
  end.

(** What [GenerateContent] yields once the HTTP exchange has returned. *)
Inductive yielded : Type :=
| Response (llmResp : model.LLMResponse)
| StatusError (statusCode : Z) (body : string)
| DecodeError.

(** Lines 150-164 of [GenerateContent]. *)
Definition receive (statusCode : Z) (body : string) : yielded :=
  if negb (statusCode =? 200)%Z then StatusError statusCode body
  else match DecodeBody body with
       | None => DecodeError
       | Some chatResp => Response (convertToLLMResponse chatResp)
       end.

End Decode.

(* --------------------------------------------------------------------- *)
(** *** The adapter and its endpoint *)
(* --------------------------------------------------------------------- *)

Record Config : Type := {
  BaseURL : string;
  Model : string
}.

(** [LocalLLM], without its HTTP client. *)
Record LocalLLM : Type := {
  baseURL : string;
  modelName : string
}.

(** [New] (lines 33-44). *)
Definition New (cfg : Config) : LocalLLM :=
  {| baseURL := strings.TrimSuffix (BaseURL cfg) "/";
     modelName := if (Model cfg =? "")%string then "local-model" else Model cfg |}.

(** [Name] (lines 47-49). *)
Definition LLMName (l : LocalLLM) : string := modelName l.

(** The URL [GenerateContent] posts to (line 136). *)
Definition requestURL (l : LocalLLM) : string :=
  (baseURL l ++ "/v1/chat/completions")%string.

End localllm.

(** The earlier version of the adapter, which shares the wire types. *)
Module localllm_earlier.
Import JSON localllm.

Section Request.

Variable Marshal : json -> string.

(** One iteration of the loop over [req.Contents] (lines 670-738): the text
    message is always appended. *)
Definition addContent (messages : list chatMessage) (content : genai.Content)
  : list chatMessage :=
  let role := wireRole content in
  let t := scanParts Marshal (genai.Parts content) in
  let messages' :=
    if negb (isNil (funcCalls t)) then
      messages ++ [ {| Role := "assistant"; Content := textContent t;
                       ToolCalls := funcCalls t; ToolCallID := "" |} ]
    else if negb (textContent t =? "")%string then
      messages ++ [ textMessage role (textContent t) ]
    else messages in
  messages' ++ map toolMessage (funcResponses t).

Definition convertToMessages (req : model.LLMRequest) : list chatMessage :=
  fold_left addContent (model.Contents req) (systemMessages req).

End Request.

End localllm_earlier.

(* ===================================================================== *)
(** ** Package bert: the intent classifier *)
(* ===================================================================== *)

Module math.

Definition Qltb (x y : Q) : bool := negb (Qle_bool y x).

(** [math.Min] on finite numbers. *)
Definition Min (x y : Q) : Q := if Qltb y x then y else x.

End math.

Module bert.
Import strings math.

Inductive Intent : Type :=
| IntentSQLQuery
| IntentVisualization
| IntentGeneral.

Definition Intent_eqb (a b : Intent) : bool :=
  match a, b with
  | IntentSQLQuery, IntentSQLQuery
  | IntentVisualization, IntentVisualization
  | IntentGeneral, IntentGeneral => true
  | _, _ => false
  end.

(** The keys of [intentPrototypes], and of [scores] once the first loop has
    run.  A [range] over either map visits a permutation of this list. *)
Definition intents : list Intent :=
  [IntentSQLQuery; IntentVisualization; IntentGeneral].

(** [c.intentPrototypes], as [NewClassifier] fills it. *)
Definition intentPrototypes (intent : Intent) : list string :=
  match intent with
  | IntentSQLQuery =>
      ["query"; "select"; "fetch"; "get"; "show"; "list"; "find";
       "database"; "table"; "data"; "rows"; "records"; "sql";
       "where"; "from"; "join"; "count"; "sum"; "average";
       "filter"; "search"; "lookup"; "retrieve"]
  | IntentVisualization =>
      ["chart"; "graph"; "plot"; "visualize"; "visualization";
       "bar"; "line"; "pie"; "scatter"; "histogram";
       "display"; "render"; "draw"; "show chart"; "create chart";
       "trend"; "comparison"; "distribution"]
  | IntentGeneral =>
      ["help"; "how"; "what"; "explain"; "describe";
       "information"; "about"; "tell me"]
  end.

(** A [map[Intent]float64] that holds all three keys. *)
Definition scoreMap : Type := Intent -> Q.

(** [scores[intent] += x]. *)
Definition addScore (scores : scoreMap) (intent : Intent) (x : Q) : scoreMap :=
  fun i => if Intent_eqb i intent then scores i + x else scores i.

(** [containsAny] (lines 1037-1044). *)
Definition containsAny (s : string) (substrs : list string) : bool :=
  existsb (Contains s) substrs.

(** [applyHeuristics] (lines 1009-1034). *)
Definition applyHeuristics (query : string) (scores : scoreMap) : scoreMap :=
  let scores :=
    if containsAny query ["chart"; "graph"; "plot"; "visualize"]
    then addScore scores IntentVisualization 1 else scores in
  let scores :=
    if containsAny query ["table"; "schema"; "column"; "database"]
    then addScore scores IntentSQLQuery (1 # 2) else scores in
  let scores :=
    if containsAny query ["show"; "display"]
       && containsAny query ["chart"; "graph"]
    then addScore scores IntentVisualization (1 # 2) else scores in
  let scores :=
    if HasPrefix query "how many" || HasPrefix query "what is" then
      if containsAny query ["in the database"; "in the table"; "records"; "rows"]
      then addScore scores IntentSQLQuery (1 # 2) else scores
    else scores in
  scores.

(** The body of [for _, word := range words] (lines 969-975). *)
Definition wordStep (keyword : string) (score : Q) (word : string) : Q :=
  if (word =? keyword)%string then score + 2
  else if Contains word keyword || Contains keyword word then score + 1
  else score.

(** The body of [for _, keyword := range keywords] (lines 966-981). *)
Definition keywordStep (queryLower : string) (words : list string)
  (score : Q) (keyword : string) : Q :=
  if Contains queryLower keyword then
    let score := fold_left (wordStep keyword) words score in
    if Qeq_bool score 0 then score + (1 # 2) else score
  else score.

(** The score of one intent, normalized by its keyword count. *)
Definition keywordScore (queryLower : string) (words keywords : list string) : Q :=
  fold_left (keywordStep queryLower words) keywords 0
  / inject_Z (Z.of_nat (length keywords)).

(** The state of the loop that finds the highest score. *)
Record best : Type := {
  maxScore : Q;
  secondScore : Q;
  bestIntent : Intent
}.

(** The body of the loop of [Classify] (lines 993-998). *)
Definition maxStep (scores : scoreMap) (b : best) (intent : Intent) : best :=
  let score := scores intent in
  if Qltb (maxScore b) score
  then {| maxScore := score; secondScore := secondScore b; bestIntent := intent |}
  else b.

(** The body of the loop of [ClassifyWithConfidence] (lines 1080-1088). *)
Definition topTwoStep (scores : scoreMap) (b : best) (intent : Intent) : best :=
  let score := scores intent in
  if Qltb (maxScore b) score
  then {| maxScore := score; secondScore := maxScore b; bestIntent := intent |}
  else if Qltb (secondScore b) score
  then {| maxScore := maxScore b; secondScore := score; bestIntent := bestIntent b |}
  else b.

Definition start : best :=
  {| maxScore := 0; secondScore := 0; bestIntent := IntentGeneral |}.

Section Classifier.

(** [strings.ToLower] and [strings.Fields]. *)
Variable ToLower : string -> string.
Variable Fields : string -> list string.

(** The order in which [range scores] visits the three intents. *)
Variable order : list Intent.

(** [scores] after the keyword loop and [applyHeuristics]. *)
Definition adjustedScores (query : string) : scoreMap :=
  let queryLower := ToLower query in
  let words := Fields queryLower in
  applyHeuristics queryLower
    (fun intent => keywordScore queryLower words (intentPrototypes intent)).

(** [Classify] (lines 957-1006). *)
Definition Classify (query : string) : Intent :=
  let scores := adjustedScores query in
  let b := fold_left (maxStep scores) order start in
  if Qltb (maxScore b) (1 # 10) then IntentGeneral else bestIntent b.

(** [ClassifyWithConfidence] (lines 1047-1105). *)
Definition ClassifyWithConfidence (query : string) : Intent * Q :=
  let scores := adjustedScores query in
  let b := fold_left (topTwoStep scores) order start in
  let confidence :=
    if Qltb 0 (maxScore b) then
      if Qltb 0 (secondScore b)
      then (maxScore b - secondScore b) / maxScore b
      else Min (maxScore b) 1
    else 0 in
  if Qltb (maxScore b) (1 # 10) then (IntentGeneral, 0)
  else (bestIntent b, confidence).

End Classifier.

End bert.

(* ===================================================================== *)
(** ** Vocabulary of the statements *)
(* ===================================================================== *)

Module spec.
Import JSON localllm.


(** The ids of the function calls and of the function responses a turn
    carries, in order. *)
Definition callIDs (content : genai.Content) : list string :=
  flat_map (fun part => match genai.PartFunctionCall part with
                        | Some fc => [genai.FC_ID fc]
                        | None => []
                        end) (genai.Parts content).

Definition responseIDs (content : genai.Content) : list string :=
  flat_map (fun part => match genai.PartFunctionResponse part with
                        | Some fr => [genai.FR_ID fr]
                        | None => []
                        end) (genai.Parts content).


(** The last message is one a text of role [role] is merged into. *)
Definition mergeTarget (lastMsg : chatMessage) (role : string) : Prop :=
  Role lastMsg = role /\ ToolCalls lastMsg = [] /\ ToolCallID lastMsg = "".

(** [a] is immediately followed by [b] in [l]. *)
Definition adjacent (a b : chatMessage) (l : list chatMessage) : Prop :=
  exists front back, l = front ++ a :: b :: back.

(** No user message comes right after a tool message. *)
Definition separated (l : list chatMessage) : Prop :=
  forall a b, adjacent a b l -> Role a = "tool" -> Role b <> "user".

(** What an assistant message declares: the ids of its tool calls. *)
Definition declares (msg : chatMessage) : list string :=
  if (Role msg =? "assistant")%string then map ID (ToolCalls msg) else [].

Definition declaredIDs (l : list chatMessage) : list string :=
  flat_map declares l.

(** Every tool message of [l] carries a tool-call id, the id of a tool
    call of an assistant message before it. *)
Definition toolMessagesReferenced (l : list chatMessage) : Prop :=
  forall front msg back,
    l = front ++ msg :: back -> Role msg = "tool" ->
    ToolCallID msg <> ""
    /\ exists a call,
         In a front /\ Role a = "assistant"
         /\ In call (ToolCalls a) /\ ID call = ToolCallID msg.

(** The same, checked from the left with the ids declared so far. *)
Fixpoint referencedFrom (seen : list string) (l : list chatMessage) : Prop :=
  match l with
  | [] => True
  | msg :: rest =>
      (Role msg = "tool" -> ToolCallID msg <> "" /\ In (ToolCallID msg) seen)
      /\ referencedFrom (seen ++ declares msg) rest
  end.

(** In the conversation, every function response has an id, the id of a
    function call of its own or of an earlier turn; [seen] are the ids of
    the calls of the turns before [contents]. *)
Fixpoint responsesAnswerCalls (seen : list string) (contents : list genai.Content)
  : Prop :=
  match contents with
  | [] => True
  | content :: rest =>
      (forall id, In id (responseIDs content) ->
                  id <> "" /\ In id (seen ++ callIDs content))
      /\ responsesAnswerCalls (seen ++ callIDs content) rest
  end.

(** What one turn preserves: the tool messages built so far are answered,
    and the calls of the turns read so far are declared. *)
Definition answered (messages : list chatMessage) (seen : list string) : Prop :=
  referencedFrom [] messages /\ forall x, In x seen -> In x (declaredIDs messages).

(** A message made of the text of a turn. *)
Definition plainTextMessage (msg : chatMessage) : Prop :=
  (Role msg = "user" \/ Role msg = "assistant") /\ ToolCalls msg = [].

(** No text message comes right after a message of its role that has no
    tool calls and no tool-call id. *)
Definition noTextAfterSameRole (l : list chatMessage) : Prop :=
  forall a b, adjacent a b l -> plainTextMessage b -> ~ mergeTarget a (Role b).

(** A user message comes right after a tool message somewhere in [l]: the
    condition under which the repair pass inserts a message. *)
Fixpoint userAfterTool (l : list chatMessage) : bool :=
  match l with
  | [] => false
  | a :: rest =>
      match rest with
      | [] => false
      | b :: _ =>
          ((Role a =? "tool")%string && (Role b =? "user")%string)
          || userAfterTool rest
      end
  end.

Section Triggers.

Variable Marshal : json -> string.

(** Processing [content] after [messages] takes the merge branch. *)
Definition mergeTriggered (messages : list chatMessage) (content : genai.Content)
  : bool :=
  let t := scanParts Marshal (genai.Parts content) in
  isNil (funcCalls t) && negb (textContent t =? "")%string
  && match lastMessage messages with
     | Some lastMsg => canMerge lastMsg (wireRole content)
     | None => false
     end.

(** Some turn of [contents], processed in order from [messages] on, takes
    the merge branch. *)
Fixpoint mergesFrom (messages : list chatMessage) (contents : list genai.Content)
  : bool :=
  match contents with
  | [] => false
  | content :: rest =>
      mergeTriggered messages content
      || mergesFrom (addContent Marshal messages content) rest
  end.

Definition triggersMerge (req : model.LLMRequest) : bool :=
  mergesFrom (systemMessages req) (model.Contents req).

Definition triggersRepair (req : model.LLMRequest) : bool :=
  userAfterTool (buildMessages Marshal req).

End Triggers.

Section Normalization.

Variable ToLower : string -> string.

(** What [newProps[pk]] is set to for the property value [pv]. *)
Definition fixProperty (pv : json) : json :=
  match pv with
  | JObject plot => JObject (fixSchemaMap ToLower plot)
  | _ => pv
  end.

(** The inner loop of [fixSchemaMap]: the properties under their own
    names. *)
Definition fixProperties (val : object) : object :=
  fold_left (fun newProps kv => mapSet newProps (fst kv) (fixProperty (snd kv)))
    val [].

(** What [out[key]] is set to for the value [v] found under a key whose
    lower-case form is [key]. *)
Definition fixEntry (key : string) (v : json) : json :=
  match v with
  | JString val => if (key =? "type")%string then JString (ToLower val) else v
  | JObject val =>
      if (key =? "properties")%string then JObject (fixProperties val)
      else JObject (fixSchemaMap ToLower val)
  | _ => v
  end.

End Normalization.



End spec.

Module classifier_spec.
Import strings bert.

(** The six orders in which a [range] over the three scores can visit
    them. *)
Definition orders : list (list Intent) :=
  [ [IntentSQLQuery; IntentVisualization; IntentGeneral];
    [IntentSQLQuery; IntentGeneral; IntentVisualization];
    [IntentVisualization; IntentSQLQuery; IntentGeneral];
    [IntentVisualization; IntentGeneral; IntentSQLQuery];
    [IntentGeneral; IntentSQLQuery; IntentVisualization];
    [IntentGeneral; IntentVisualization; IntentSQLQuery] ].

(** No keyword of the vocabulary of [intent] occurs in [queryLower]. *)
Definition silent (queryLower : string) (intent : Intent) : Prop :=
  forall keyword,
    In keyword (intentPrototypes intent) -> Contains queryLower keyword = false.

(** [Classify] and [ClassifyWithConfidence] on ASCII queries. *)
Definition classify (order : list Intent) (query : string) : Intent :=
  Classify asciiToLower asciiFields order query.

Definition classifyWithConfidence (order : list Intent) (query : string)
  : Intent * Q :=
  ClassifyWithConfidence asciiToLower asciiFields order query.

Definition scoresOf (query : string) : list Q :=
  map (fun intent => Qred (adjustedScores asciiToLower asciiFields query intent))
    intents.

(** Two states of the loop of [ClassifyWithConfidence] with equal highest
    and second highest scores. *)
Definition sameScores (b1 b2 : best) : Prop :=
  maxScore b1 == maxScore b2 /\ secondScore b1 == secondScore b2.

(** The confidence that [ClassifyWithConfidence] computes from the state
    of its loop (lines 1090-1104). *)
Definition confidenceOf (b : best) : Q :=
  if math.Qltb (maxScore b) (1 # 10) then 0
  else if math.Qltb 0 (maxScore b) then
         if math.Qltb 0 (secondScore b)
         then (maxScore b - secondScore b) / maxScore b
         else math.Min (maxScore b) 1
       else 0.

End classifier_spec.

(* ===================================================================== *)
(** ** Sample conversations *)
(* ===================================================================== *)

Module sample.
Import JSON.

Definition textTurn (role text : string) : genai.Content :=
  {| genai.Role := role; genai.Parts := [genai.NewPartFromText text] |}.

Definition callTurn (callID toolName : string) (args : object) : genai.Content :=
  {| genai.Role := "model";
     genai.Parts :=
       [ {| genai.Text := "";
            genai.PartFunctionCall :=
              Some {| genai.FC_ID := callID; genai.FC_Name := toolName;
                      genai.FC_Args := args |};
            genai.PartFunctionResponse := None |} ] |}.

Definition responseTurn (callID toolName : string) (result : object)
  : genai.Content :=
  {| genai.Role := "user";
     genai.Parts :=
       [ {| genai.Text := "";
            genai.PartFunctionCall := None;
            genai.PartFunctionResponse :=
              Some {| genai.FR_ID := callID; genai.FR_Name := toolName;
                      genai.FR_Response := result |} |} ] |}.

Definition withSystem (text : string) : option genai.GenerateContentConfig :=
  Some {| genai.SystemInstruction := Some (textTurn "system" text);
          genai.Temperature := None;
          genai.Tools := [] |}.


(** A tool call, its result, and the next question of the user. *)
Definition toolThenUser : model.LLMRequest :=
  {| model.Contents :=
       [textTurn "user" "List all tables";
        callTurn "call-1" "list_tables" [];
        responseTurn "call-1" "list_tables" [("tables", JArray [JString "users"])];
        textTurn "user" "Describe users"];
     model.Config := None |}.

(** A question, a tool call, its result and the answer of the model. *)
Definition toolThenAnswer : model.LLMRequest :=
  {| model.Contents :=
       [textTurn "user" "List all tables";
        callTurn "call-1" "list_tables" [];
        responseTurn "call-1" "list_tables" [("tables", JArray [JString "users"])];
        textTurn "model" "There is one table, users."];
     model.Config := withSystem "You are helpful" |}.

(** A turn with two function responses that answer no function call; the
    first has no id. *)
Definition orphanResponses : model.LLMRequest :=
  {| model.Contents :=
       [ {| genai.Role := "user";
            genai.Parts :=
              genai.Parts (responseTurn "" "list_tables"
                             [("tables", JArray [JString "users"])])
              ++ genai.Parts (responseTurn "call-9" "list_tables"
                                [("tables", JArray [JString "users"])]) |} ];
     model.Config := None |}.

(** The tool message built from one of them. *)
Definition orphanMessage (callID : string) : localllm.chatMessage :=
  {| localllm.Role := "tool";
     localllm.Content := encode (JObject [("tables", JArray [JString "users"])]);
     localllm.ToolCalls := [];
     localllm.ToolCallID := callID |}.

(** The schema of the specification's example and its normal form. *)
Definition capitalized : object :=
  [("Type", JString "object");
   ("Properties", JObject [("Foo", JObject [("Type", JString "string")])])].

Definition normalized : object :=
  [("type", JString "object");
   ("properties", JObject [("Foo", JObject [("type", JString "string")])])].

Definition declaredTool : genai.FunctionDeclaration :=
  {| genai.FD_Name := "lookup"; genai.FD_Description := "Look a row up";
     genai.FD_Parameters := Some capitalized |}.


Definition unmarshalEmptyObject (text : string) : object * bool :=
  if (text =? "{}")%string then ([], false) else ([], true).

Definition noUsage : localllm.usage :=
  {| localllm.PromptTokens := 0; localllm.CompletionTokens := 0;
     localllm.TotalTokens := 0 |}.

(** A tool call whose arguments are no JSON. *)
Definition brokenCall : localllm.toolCall :=
  {| localllm.ID := "call-2"; localllm.Type_ := "function";
     localllm.Function_ :=
       {| localllm.Name := "get_schema";
          localllm.Arguments := "{table_name: users" |} |}.

(** A response whose second tool call is [brokenCall]. *)
Definition brokenArguments : localllm.chatResponse :=
  {| localllm.ResponseID := "chatcmpl-1";
     localllm.Choices :=
       [ {| localllm.Index := 0;
            localllm.Message :=
              {| localllm.Role := "assistant";
                 localllm.Content := "Let me look.";
                 localllm.ToolCalls :=
                   [ {| localllm.ID := "call-1"; localllm.Type_ := "function";
                        localllm.Function_ :=
                          {| localllm.Name := "list_tables";
                             localllm.Arguments := "{}" |} |};
                     brokenCall ];
                 localllm.ToolCallID := "" |};
            localllm.FinishReason := "tool_calls" |} ];
     localllm.Usage := noUsage |}.

(** A response without choices. *)
Definition noChoices : localllm.chatResponse :=
  {| localllm.ResponseID := "chatcmpl-2"; localllm.Choices := [];
     localllm.Usage := noUsage |}.







End sample.

(* ===================================================================== *)
(** ** Package manager: routing by intent *)
(* ===================================================================== *)

Module manager.
Import strings bert.

Record Result : Type := {
  Query : string;
  ClassifiedIntent : string;
  Confidence : Q;
  AgentsUsed : list string;
  Workflow : string;
  SQLResult : string;
  ChartResult : string;
  Error : string
}.

(** [string(intent)]: the constants of lines 919-923. *)
Definition intentString (intent : Intent) : string :=
  match intent with
  | IntentSQLQuery => "sql_query"
  | IntentVisualization => "visualization"
  | IntentGeneral => "general"
  end.

Definition dataIndicators : list string :=
  ["from database"; "from table"; "data from";
   "show me"; "get"; "fetch"; "query";
   "sales"; "users"; "orders"; "records"].

Section Routing.

Variable ToLower : string -> string.
Variable Fields : string -> list string.
Variable order : list Intent.

(** [needsDataFetch]. *)
Definition needsDataFetch (query : string) : bool :=
  let queryLower := ToLower query in
  existsb (Contains queryLower) dataIndicators.

(** [ProcessQuery]: the result and the error, which is always nil. *)
Definition ProcessQuery (query : string) : Result * option string :=
  let (intent, confidence) := ClassifyWithConfidence ToLower Fields order query in
  let route :=
    match intent with
    | IntentSQLQuery => (["SQLAgent"], "sql_query")
    | IntentVisualization =>
        if needsDataFetch query
        then (["SQLAgent"; "ChartAgent"], "sql_then_chart")
        else (["ChartAgent"], "chart_only")
    | IntentGeneral => (["ManagerAgent"], "general")
    end in
  ({| Query := query;
      ClassifiedIntent := intentString intent;
      Confidence := confidence;
      AgentsUsed := fst route;
      Workflow := snd route;
      SQLResult := "";
      ChartResult := "";
      Error := "" |}, None).

End Routing.

End manager.

(* ===================================================================== *)
(** ** Package config *)
(* ===================================================================== *)

Module config.

Definition LLMProviderGemini : string := "gemini".
Definition LLMProviderLocal : string := "local".

Record Config : Type := {
  DatabaseURL : string;
  LLMProvider : string;
  GoogleAPIKey : string;
  Model : string;
  LocalLLMURL : string;
  MCPServerAddr : string
}.

Inductive ConfigError : Type :=
| ErrMissingDatabaseURL
| ErrMissingAPIKey
| ErrMissingLocalLLMURL.

Section Environment.

(** [os.Getenv]: the value of the variable, empty when it is not set. *)
Variable Getenv : string -> string.

Definition getEnvOrDefault (key defaultVal : string) : string :=
  let val := Getenv key in
  if negb (val =? "")%string then val else defaultVal.

Definition New : Config :=
  let provider := getEnvOrDefault "LLM_PROVIDER" "gemini" in
  let model := Getenv "LLM_MODEL" in
  let model :=
    if (model =? "")%string then
      if (provider =? LLMProviderGemini)%string then "gemini-2.0-flash"
      else "local-model"
    else model in
  {| DatabaseURL := Getenv "DATABASE_URL";
     LLMProvider := provider;
     GoogleAPIKey := Getenv "GOOGLE_API_KEY";
     Model := model;
     LocalLLMURL := getEnvOrDefault "LOCAL_LLM_URL" "http://localhost:1234";
     MCPServerAddr := getEnvOrDefault "MCP_SERVER_ADDR" "localhost:9000" |}.

End Environment.

(** [Validate]: [None] is the nil error. *)
Definition Validate (c : Config) : option ConfigError :=
  if (DatabaseURL c =? "")%string then Some ErrMissingDatabaseURL
  else if (LLMProvider c =? LLMProviderGemini)%string
          && (GoogleAPIKey c =? "")%string then Some ErrMissingAPIKey
  else if (LLMProvider c =? LLMProviderLocal)%string
          && (LocalLLMURL c =? "")%string then Some ErrMissingLocalLLMURL
  else None.

Definition IsLocalLLM (c : Config) : bool :=
  (LLMProvider c =? LLMProviderLocal)%string.

(** The adapter that [main] builds for a local provider. *)
Definition localAdapter (c : Config) : localllm.LocalLLM :=
  localllm.New {| localllm.BaseURL := LocalLLMURL c; localllm.Model := Model c |}.

End config.

(* ===================================================================== *)
(** ** Package chart: the ceiling of the value axis *)
(* ===================================================================== *)

Module chart.
Import math.

(** The values of a series are [float64] in the source and exact
    rationals here, like the scores of the classifier.

    [int(x)] for a [float64] in the range of [int]: truncation toward
    zero. *)
Definition toInt (x : Q) : Z := Z.quot (Qnum x) (Zpos (Qden x)).

(** [roundUpNice]. *)
Definition roundUpNice (val : Q) : Q :=
  if Qle_bool val 10 then 10
  else if Qle_bool val 50 then 50
  else if Qle_bool val 100 then 100
  else if Qle_bool val 500 then 500
  else if Qle_bool val 1000 then 1000
  else inject_Z (toInt (val / 1000) + 1) * 1000.

(** The loop that finds [maxVal] in [GenerateMermaidBarChart] and
    [GenerateMermaidLineChart]. *)
Definition maxValue (data : list Q) : Q :=
  fold_left (fun maxVal v => if Qltb maxVal v then v else maxVal) data 0.

(** The upper end of the value axis that both functions print. *)
Definition axisMax (data : list Q) : Q := roundUpNice (maxValue data).

End chart.

(* ===================================================================== *)
(** ** Package bert: the tests of the classifier *)
(* ===================================================================== *)

Module bert_test.
Import bert classifier_spec.

(** The table of [TestClassifier_Classify]: query and expected intent. *)
Definition tests : list (string * Intent) :=
  [ ("Show me all tables in the database", IntentSQLQuery);
    ("Get all users from the users table", IntentSQLQuery);
    ("Select all records where status is active", IntentSQLQuery);
    ("Create a bar chart of sales by month", IntentVisualization);
    ("Show me a line graph of revenue over time", IntentVisualization);
    ("Generate a pie chart showing market share", IntentVisualization);
    ("How do I use this system?", IntentGeneral) ].

(** [TestClassifier_Classify] for one order of visiting the scores: no
    call of [t.Errorf]. *)
Definition TestClassifier_Classify (order : list Intent) : bool :=
  forallb (fun tt => Intent_eqb (classify order (fst tt)) (snd tt)) tests.

(** The two checks of [TestClassifier_ClassifyWithConfidence] for one
    query. *)
Definition confident (order : list Intent) (query : string) (expected : Intent)
  : bool :=
  let (intent, confidence) := classifyWithConfidence order query in
  Intent_eqb intent expected && negb (Qle_bool confidence 0).

Definition TestClassifier_ClassifyWithConfidence (order : list Intent) : bool :=
  confident order "SELECT * FROM users WHERE id = 1" IntentSQLQuery
  && confident order "Create a bar chart showing monthly sales"
       IntentVisualization.

End bert_test.

(* ===================================================================== *)
(** ** Vocabulary of the further statements *)
(* ===================================================================== *)

Module facts.
Import JSON localllm.

Definition isRole (role : string) (msg : chatMessage) : bool :=
  (Role msg =? role)%string.

(** The tool-call ids of the tool messages of [l], in order. *)
Definition answeredIDs (l : list chatMessage) : list string :=
  map ToolCallID (filter (isRole "tool") l).

(** The ids of the tool calls of the messages of [l], in order. *)
Definition calledIDs (l : list chatMessage) : list string :=
  flat_map (fun msg => map ID (ToolCalls msg)) l.


(** How many user messages come right after a tool message in [l]. *)
Fixpoint countUserAfterTool (l : list chatMessage) : nat :=
  match l with
  | [] => O
  | a :: rest =>
      match rest with
      | [] => O
      | b :: _ =>
          (if (Role a =? "tool")%string && (Role b =? "user")%string
           then 1 else 0)%nat + countUserAfterTool rest
      end
  end.



(** [r] is the [int32] that the conversion [int32(n)] gives. *)
Definition int32Of (n r : Z) : Prop :=
  (-2147483648 <= r < 2147483648)%Z
  /\ ((r - n) mod 4294967296 = 0)%Z
  /\ ((0 <= n < 2147483648)%Z -> r = n).

End facts.

(* ===================================================================== *)
(** ** Request construction: merging of text turns *)
(* ===================================================================== *)

Section MessageFacts.
Import JSON localllm spec.

Variable Marshal : json -> string.

Lemma splitLast_nil (A : Type) : splitLast (@nil A) = None.
Proof. reflexivity. Qed.

Lemma splitLast_snoc (A : Type) (l : list A) (x : A) :
  splitLast (l ++ [x]) = Some (l, x).
Proof.
  unfold splitLast. rewrite rev_app_distr. simpl. now rewrite rev_involutive.
Qed.

Lemma lastMessage_snoc (l : list chatMessage) (m : chatMessage) :
  lastMessage (l ++ [m]) = Some m.
Proof. unfold lastMessage. now rewrite splitLast_snoc. Qed.

Lemma isNil_true (A : Type) (l : list A) : isNil l = true <-> l = [].
Proof. destruct l; simpl; split; congruence. Qed.

Lemma canMerge_spec (lastMsg : chatMessage) (role : string) :
  canMerge lastMsg role = true <-> mergeTarget lastMsg role.
Proof.
  unfold canMerge, mergeTarget.
  rewrite !andb_true_iff, !String.eqb_eq, isNil_true. tauto.
Qed.

(** The three accumulators of the loop over the parts, one at a time. *)
Lemma scanParts_fold (parts : list genai.Part) (t : turnParts) :
  let t' := fold_left (scanPart Marshal) parts t in
  textContent t' =
    fold_left (fun acc part =>
                 if (genai.Text part =? "")%string then acc
                 else (acc ++ genai.Text part)%string) parts (textContent t)
  /\ map ID (funcCalls t') =
       map ID (funcCalls t) ++ callIDs {| genai.Role := ""; genai.Parts := parts |}
  /\ map id (funcResponses t') =
       map id (funcResponses t)
       ++ responseIDs {| genai.Role := ""; genai.Parts := parts |}.
Proof.
  revert t. induction parts as [ | part parts IH ]; intros t; simpl.
  - unfold callIDs, responseIDs. simpl. now rewrite !app_nil_r.
  - destruct (IH (scanPart Marshal t part)) as (Ht & Hc & Hr).
    simpl in Ht, Hc, Hr. rewrite Ht, Hc, Hr. clear Ht Hc Hr IH.
    unfold callIDs, responseIDs, scanPart. simpl.
    destruct (genai.PartFunctionCall part), (genai.PartFunctionResponse part);
      simpl; rewrite ?map_app, <- ?app_assoc; simpl; rewrite ?app_nil_r; auto.
Qed.


Lemma scanParts_calls (content : genai.Content) :
  map ID (funcCalls (scanParts Marshal (genai.Parts content))) = callIDs content.
Proof.
  unfold scanParts. destruct (scanParts_fold (genai.Parts content)
    {| textContent := ""; funcCalls := []; funcResponses := [] |}) as (_ & H & _).
  simpl in H. rewrite H. now destruct content.
Qed.

Lemma scanParts_responses (content : genai.Content) :
  map id (funcResponses (scanParts Marshal (genai.Parts content)))
  = responseIDs content.
Proof.
  unfold scanParts. destruct (scanParts_fold (genai.Parts content)
    {| textContent := ""; funcCalls := []; funcResponses := [] |}) as (_ & _ & H).
  simpl in H. rewrite H. now destruct content.
Qed.







Lemma wireRole_cases (content : genai.Content) :
  wireRole content = "assistant" \/ wireRole content = "user".
Proof. unfold wireRole. destruct (_ =? _)%string; auto. Qed.

Lemma systemMessages_cases (req : model.LLMRequest) :
  systemMessages req = []
  \/ exists sysText, systemMessages req = [textMessage "system" sysText].
Proof.
  unfold systemMessages. destruct (model.Config req) as [cfg | ]; auto.
  destruct (genai.SystemInstruction cfg) as [si | ]; auto.
  destruct (_ =? _)%string; eauto.
Qed.


End MessageFacts.



(* ===================================================================== *)
(** ** Request construction: the alternation repair pass *)
(* ===================================================================== *)

Section RepairFacts.
Import JSON localllm spec.

Lemma repairStep_cases (acc : list chatMessage) (msg : chatMessage) :
  repairStep acc msg = acc ++ [msg]
  \/ (repairStep acc msg = acc ++ [synthetic; msg]
      /\ Role msg = "user"
      /\ exists front lastMsg, acc = front ++ [lastMsg] /\ Role lastMsg = "tool").
Proof.
  unfold repairStep.
  destruct (Role msg =? "user")%string eqn:Euser; simpl; auto.
  destruct acc as [ | x acc' ] using rev_ind; simpl; auto.
  clear IHacc'. rewrite lastMessage_snoc.
  replace (isNil (acc' ++ [x])) with false by (now destruct acc').
  simpl. destruct (Role x =? "tool")%string eqn:Etool; auto.
  right. rewrite <- app_assoc. split; [ reflexivity | ].
  apply String.eqb_eq in Euser, Etool. eauto.
Qed.




Lemma snoc_adjacent (l : list chatMessage) (m a b : chatMessage) :
  adjacent a b (l ++ [m]) ->
  adjacent a b l \/ (b = m /\ exists front, l = front ++ [a]).
Proof.
  intros (front & back & E).
  destruct back as [ | y back' ] using rev_ind.
  - right. change (front ++ [a; b]) with (front ++ [a] ++ [b]) in E.
    rewrite app_assoc in E. apply app_inj_tail in E. destruct E as (-> & ->).
    eauto.
  - left. clear IHback'.
    change (front ++ a :: b :: back' ++ [y])
      with (front ++ (a :: b :: back') ++ [y]) in E.
    rewrite app_assoc in E. apply app_inj_tail in E. destruct E as (-> & _).
    now exists front, back'.
Qed.

Lemma separated_nil : separated [].
Proof. intros a b (front & back & E). now destruct front. Qed.

Lemma repairStep_separated (acc : list chatMessage) (msg : chatMessage) :
  separated acc -> separated (repairStep acc msg).
Proof.
  intros Hacc.
  assert (Hsnoc : forall l m, separated l ->
            (forall front x, l = front ++ [x] -> Role x = "tool" -> Role m <> "user") ->
            separated (l ++ [m])).
  { intros l m Hl Hlast a b Hadj Ha.
    apply snoc_adjacent in Hadj. destruct Hadj as [Hadj | (-> & front & ->)].
    - now apply (Hl a b).
    - now apply (Hlast front a). }
  unfold repairStep.
  destruct (Role msg =? "user")%string eqn:Euser; simpl.
  - destruct acc as [ | x acc' ] using rev_ind; simpl.
    + apply (Hsnoc [] msg separated_nil). intros front y E. now destruct front.
    + clear IHacc'. rewrite lastMessage_snoc.
      replace (isNil (acc' ++ [x])) with false by (now destruct acc').
      simpl. destruct (Role x =? "tool")%string eqn:Etool.
      * apply Hsnoc.
        -- apply Hsnoc; [ exact Hacc | ]. intros; discriminate.
        -- intros front y E. apply app_inj_tail in E. destruct E as (_ & <-).
           discriminate.
      * apply Hsnoc; [ exact Hacc | ].
        intros front y E Hy. apply app_inj_tail in E. destruct E as (_ & <-).
        rewrite Hy in Etool. discriminate.
  - apply Hsnoc; [ exact Hacc | ]. intros front x _ _ H.
    rewrite H in Euser. discriminate.
Qed.

Lemma repair_separated (messages : list chatMessage) : separated (repair messages).
Proof.
  unfold repair. generalize separated_nil. generalize (@nil chatMessage).
  induction messages as [ | msg messages IH ]; intros acc Hacc; simpl.
  - exact Hacc.
  - apply IH, repairStep_separated, Hacc.
Qed.

End RepairFacts.



(* ===================================================================== *)
(** ** The two versions of request construction *)
(* ===================================================================== *)

Section VersionFacts.
Import JSON localllm spec.

Variable Marshal : json -> string.

Lemma addContent_no_merge (messages : list chatMessage) (content : genai.Content) :
  mergeTriggered Marshal messages content = false ->
  localllm.addContent Marshal messages content
  = localllm_earlier.addContent Marshal messages content.
Proof.
  unfold mergeTriggered, localllm.addContent, localllm_earlier.addContent.
  destruct (isNil (funcCalls (scanParts Marshal (genai.Parts content))));
    simpl; [ | reflexivity ].
  destruct (textContent (scanParts Marshal (genai.Parts content)) =? "")%string;
    simpl; [ reflexivity | ].
  unfold addText, lastMessage.
  destruct (splitLast messages) as [ [front lastMsg] | ]; simpl;
    [ | reflexivity ].
  now intros ->.
Qed.

Lemma build_no_merge (contents : list genai.Content) (messages : list chatMessage) :
  mergesFrom Marshal messages contents = false ->
  fold_left (localllm.addContent Marshal) contents messages
  = fold_left (localllm_earlier.addContent Marshal) contents messages.
Proof.
  revert messages.
  induction contents as [ | content contents IH ]; intros messages; simpl.
  - reflexivity.
  - intros H. apply orb_false_iff in H. destruct H as (Hhere & Hrest).
    rewrite <- (addContent_no_merge _ _ Hhere). now apply IH.
Qed.

Lemma repair_from_last (l front : list chatMessage) (x : chatMessage) :
  userAfterTool (x :: l) = false ->
  fold_left repairStep l (front ++ [x]) = front ++ x :: l.
Proof.
  revert front x. induction l as [ | m l IH ]; intros front x H.
  - reflexivity.
  - cbn [userAfterTool] in H. apply orb_false_iff in H.
    destruct H as (Hhere & Hrest). cbn [fold_left].
    assert (Hstep : repairStep (front ++ [x]) m = (front ++ [x]) ++ [m]).
    { destruct (repairStep_cases (front ++ [x]) m)
        as [E | (_ & Hm & front' & y & E & Hy)]; [ exact E | ].
      apply app_inj_tail in E. destruct E as (_ & <-).
      rewrite Hm, Hy in Hhere. discriminate. }
    rewrite Hstep, (IH _ m Hrest). now rewrite <- app_assoc.
Qed.

Lemma repair_not_triggered (l : list chatMessage) :
  userAfterTool l = false -> repair l = l.
Proof.
  destruct l as [ | x l ]; [ reflexivity | ]. intros H.
  unfold repair. cbn [fold_left].
  assert (E : repairStep [] x = [] ++ [x]).
  { unfold repairStep. simpl. now rewrite andb_false_r. }
  rewrite E. now apply repair_from_last.
Qed.

Lemma splitLast_Some (A : Type) (l front : list A) (x : A) :
  splitLast l = Some (front, x) -> l = front ++ [x].
Proof.
  destruct l as [ | y l' ] using rev_ind.
  - discriminate.
  - rewrite splitLast_snoc. congruence.
Qed.

Lemma earlier_extends (contents : list genai.Content) (messages : list chatMessage) :
  exists back,
    fold_left (localllm_earlier.addContent Marshal) contents messages
    = messages ++ back.
Proof.
  revert messages.
  induction contents as [ | content contents IH ]; intros messages; simpl.
  - exists []. now rewrite app_nil_r.
  - destruct (IH (localllm_earlier.addContent Marshal messages content))
      as (back & ->).
    unfold localllm_earlier.addContent.
    destruct (negb _); [ | destruct (negb _) ];
      rewrite <- ?app_assoc; eauto.
Qed.

(** A merge shows in what the earlier version sends: the text message that
    the complete version merges follows its merge target there. *)
Lemma merge_seen_in_earlier (contents : list genai.Content)
  (messages : list chatMessage) :
  mergesFrom Marshal messages contents = true ->
  exists a b,
    adjacent a b (fold_left (localllm_earlier.addContent Marshal) contents messages)
    /\ plainTextMessage b /\ mergeTarget a (Role b).
Proof.
  revert messages.
  induction contents as [ | content contents IH ]; intros messages; simpl.
  - discriminate.
  - destruct (mergeTriggered Marshal messages content) eqn:Hhere; simpl.
    + intros _. clear IH.
      destruct (earlier_extends contents
                  (localllm_earlier.addContent Marshal messages content))
        as (back & ->).
      unfold mergeTriggered in Hhere.
      apply andb_true_iff in Hhere. destruct Hhere as (Hhere & Hlast).
      apply andb_true_iff in Hhere. destruct Hhere as (Hcalls & Htext).
      unfold localllm_earlier.addContent. rewrite Hcalls, Htext. simpl.
      unfold lastMessage in Hlast.
      destruct (splitLast messages) as [ [front lastMsg] | ] eqn:Hsplit;
        [ | discriminate ].
      simpl in Hlast. apply splitLast_Some in Hsplit. subst messages.
      apply canMerge_spec in Hlast.
      exists lastMsg,
        (textMessage (wireRole content)
           (textContent (scanParts Marshal (genai.Parts content)))).
      split; [ | split ].
      * eexists front, _. rewrite <- !app_assoc. reflexivity.
      * split; [ | reflexivity ]. simpl.
        destruct (wireRole_cases content); auto.
      * exact Hlast.
    + intros Hrest. rewrite <- (addContent_no_merge _ _ Hhere). now apply IH.
Qed.

Lemma userAfterTool_adjacent (l : list chatMessage) :
  userAfterTool l = true ->
  exists a b, adjacent a b l /\ Role a = "tool" /\ Role b = "user".
Proof.
  induction l as [ | a l IH ]; [ discriminate | ].
  destruct l as [ | b l ]; [ discriminate | ].
  cbn [userAfterTool]. intros H. apply orb_true_iff in H. destruct H as [H | H].
  - apply andb_true_iff in H. destruct H as (Ha & Hb).
    apply String.eqb_eq in Ha, Hb. exists a, b. split; [ | auto ].
    now exists [], l.
  - destruct (IH H) as (x & y & (front & back & E) & Hxy).
    exists x, y. split; [ | exact Hxy ]. exists (a :: front), back.
    now rewrite E.
Qed.

(** The two triggers, read off the messages of the earlier version. *)
Lemma triggers_seen_in_earlier (req : model.LLMRequest) :
  noTextAfterSameRole (localllm_earlier.convertToMessages Marshal req) ->
  separated (localllm_earlier.convertToMessages Marshal req) ->
  triggersMerge Marshal req = false /\ triggersRepair Marshal req = false.
Proof.
  intros Htext Hsep.
  assert (Hmerge : triggersMerge Marshal req = false).
  { destruct (triggersMerge Marshal req) eqn:E; [ exfalso | reflexivity ].
    apply merge_seen_in_earlier in E. destruct E as (a & b & Hadj & Hb & Ha).
    exact (Htext a b Hadj Hb Ha). }
  split; [ exact Hmerge | ].
  unfold triggersRepair, buildMessages.
  rewrite (build_no_merge _ _ Hmerge).
  destruct (userAfterTool _) eqn:E; [ exfalso | reflexivity ].
  apply userAfterTool_adjacent in E. destruct E as (a & b & Hadj & Ha & Hb).
  exact (Hsep a b Hadj Ha Hb).
Qed.

End VersionFacts.

(** C10.  On a request that triggers neither the merge branch nor the
    repair pass of the complete version, the complete and the earlier
    version of [convertToMessages] return the same messages.  The two
    triggers can be read off the messages of the earlier version: no text
    message right after a message of its role without tool calls and
    tool-call id, and no user message right after a tool message. *)
Theorem versions_agree_without_merge_and_repair :
  forall (Marshal : JSON.json -> string) (req : model.LLMRequest),
    (spec.triggersMerge Marshal req = false ->
     spec.triggersRepair Marshal req = false ->
     localllm.convertToMessages Marshal req
     = localllm_earlier.convertToMessages Marshal req)
    /\ (spec.noTextAfterSameRole (localllm_earlier.convertToMessages Marshal req) ->
        spec.separated (localllm_earlier.convertToMessages Marshal req) ->
        localllm.convertToMessages Marshal req
        = localllm_earlier.convertToMessages Marshal req).
Proof.
  intros Marshal req.
  assert (H : spec.triggersMerge Marshal req = false ->
              spec.triggersRepair Marshal req = false ->
              localllm.convertToMessages Marshal req
              = localllm_earlier.convertToMessages Marshal req).
  { intros Hmerge Hrepair. unfold localllm.convertToMessages.
    rewrite (repair_not_triggered _ Hrepair).
    apply build_no_merge, Hmerge. }
  split; [ exact H | ].
  intros Htext Hsep.
  destruct (triggers_seen_in_earlier Marshal req Htext Hsep). auto.
Qed.

Lemma versions_agree_on_tool_then_answer :
  localllm.convertToMessages JSON.encode sample.toolThenAnswer
  = localllm_earlier.convertToMessages JSON.encode sample.toolThenAnswer.
Proof.
  apply (proj1 (versions_agree_without_merge_and_repair JSON.encode
                  sample.toolThenAnswer)); reflexivity.
Defined.

(* ===================================================================== *)
(** ** Tool messages and the tool calls they answer *)
(* ===================================================================== *)

Section ToolMessageFacts.
Import JSON localllm spec.

Variable Marshal : json -> string.

Lemma declaredIDs_app (l1 l2 : list chatMessage) :
  declaredIDs (l1 ++ l2) = declaredIDs l1 ++ declaredIDs l2.
Proof. apply flat_map_app. Qed.

Lemma referencedFrom_mono (l : list chatMessage) (seen seen' : list string) :
  (forall x, In x seen -> In x seen') ->
  referencedFrom seen l -> referencedFrom seen' l.
Proof.
  revert seen seen'. induction l as [ | msg l IH ]; intros seen seen' Hsub; simpl.
  - trivial.
  - intros (Hmsg & Hrest). split.
    + intros Htool. destruct (Hmsg Htool). auto.
    + apply (IH (seen ++ declares msg)); [ | exact Hrest ].
      intros x Hx. apply in_app_iff in Hx. apply in_app_iff.
      destruct Hx; auto.
Qed.

Lemma referencedFrom_app (l1 l2 : list chatMessage) (seen : list string) :
  referencedFrom seen (l1 ++ l2)
  <-> referencedFrom seen l1 /\ referencedFrom (seen ++ declaredIDs l1) l2.
Proof.
  revert seen. induction l1 as [ | msg l1 IH ]; intros seen; simpl.
  - rewrite app_nil_r. tauto.
  - rewrite IH. unfold declaredIDs. simpl. rewrite <- app_assoc. tauto.
Qed.

Lemma declaredIDs_In (l : list chatMessage) (x : string) :
  In x (declaredIDs l) ->
  exists a call, In a l /\ Role a = "assistant"
                 /\ In call (ToolCalls a) /\ ID call = x.
Proof.
  unfold declaredIDs. rewrite in_flat_map. intros (a & Ha & Hx).
  unfold declares in Hx.
  destruct (Role a =? "assistant")%string eqn:E; [ | contradiction ].
  apply String.eqb_eq in E. apply in_map_iff in Hx.
  destruct Hx as (call & Hid & Hcall). eauto 6.
Qed.

Lemma referencedFrom_sound (l : list chatMessage) :
  referencedFrom [] l -> toolMessagesReferenced l.
Proof.
  intros H front msg back -> Htool.
  apply referencedFrom_app in H. destruct H as (_ & H). simpl in H.
  destruct H as (H & _). destruct (H Htool) as (Hid & Hin).
  split; [ exact Hid | ]. now apply declaredIDs_In.
Qed.

(** The tool messages of a turn, appended to messages that declare the
    calls they answer. *)
Lemma referencedFrom_toolMessages (responses : list funcResponse)
  (seen : list string) :
  (forall x, In x (map id responses) -> x <> "" /\ In x seen) ->
  referencedFrom seen (map toolMessage responses).
Proof.
  revert seen. induction responses as [ | fr responses IH ]; intros seen H; simpl.
  - trivial.
  - split.
    + intros _. apply H. now left.
    + apply IH. intros x Hx. destruct (H x) as (Hne & Hin); [ now right | ].
      split; [ exact Hne | ]. apply in_app_iff. now left.
Qed.

Lemma declaredIDs_toolMessages (responses : list funcResponse) :
  declaredIDs (map toolMessage responses) = [].
Proof. induction responses; simpl; auto. Qed.

Lemma addText_answered (messages : list chatMessage) (role text : string)
  (seen : list string) :
  role <> "tool" ->
  answered messages seen -> answered (addText messages role text) seen.
Proof.
  intros Hrole (Href & Hseen). unfold addText.
  assert (Happend : answered (messages ++ [textMessage role text]) seen).
  { split.
    - apply referencedFrom_app. split; [ exact Href | ]. simpl.
      split; [ | trivial ]. intros Habs. contradiction.
    - intros x Hx. rewrite declaredIDs_app. apply in_app_iff. auto. }
  destruct (splitLast messages) as [ [front lastMsg] | ] eqn:Hsplit;
    [ | exact Happend ].
  destruct (canMerge lastMsg role) eqn:Hmerge; [ | exact Happend ].
  apply splitLast_Some in Hsplit. subst messages.
  apply referencedFrom_app in Href. destruct Href as (Hfront & Hlast).
  split.
  - apply referencedFrom_app. split; [ exact Hfront | exact Hlast ].
  - intros x Hx. apply Hseen in Hx.
    rewrite declaredIDs_app in *. exact Hx.
Qed.

Lemma addContent_answered (messages : list chatMessage) (content : genai.Content)
  (seen : list string) :
  (forall x, In x (responseIDs content) ->
             x <> "" /\ In x (seen ++ callIDs content)) ->
  answered messages seen ->
  answered (addContent Marshal messages content) (seen ++ callIDs content).
Proof.
  intros Hresp Hans. unfold addContent.
  rewrite <- (scanParts_responses Marshal) in Hresp.
  rewrite <- (scanParts_calls Marshal) in *.
  set (t := scanParts Marshal (genai.Parts content)) in *.
  match goal with
  | |- answered (?m ++ _) _ => set (messages' := m)
  end.
  assert (H' : answered messages' (seen ++ map ID (funcCalls t))).
  { subst messages'. destruct (funcCalls t) as [ | call calls ] eqn:Hcalls; simpl.
    - rewrite app_nil_r.
      destruct (textContent t =? "")%string; simpl; [ exact Hans | ].
      apply addText_answered; [ | exact Hans ].
      destruct (wireRole_cases content) as [-> | ->]; discriminate.
    - destruct Hans as (Href & Hseen). split.
      + apply referencedFrom_app. split; [ exact Href | ]. simpl.
        split; [ | trivial ]. intros Habs. discriminate.
      + intros x Hx. rewrite declaredIDs_app. apply in_app_iff.
        apply in_app_iff in Hx. destruct Hx as [Hx | Hx]; [ auto | ].
        right. unfold declaredIDs, declares. simpl. now rewrite app_nil_r. }
  destruct H' as (Href & Hseen). split.
  - apply referencedFrom_app. split; [ exact Href | ].
    apply referencedFrom_toolMessages. intros x Hx.
    destruct (Hresp x Hx) as (Hne & Hin). split; [ exact Hne | ].
    apply in_app_iff. right. now apply Hseen.
  - intros x Hx. rewrite declaredIDs_app. apply in_app_iff. left.
    now apply Hseen.
Qed.

Lemma build_answered (contents : list genai.Content) (messages : list chatMessage)
  (seen : list string) :
  responsesAnswerCalls seen contents ->
  answered messages seen ->
  referencedFrom [] (fold_left (addContent Marshal) contents messages).
Proof.
  revert messages seen.
  induction contents as [ | content contents IH ]; intros messages seen; simpl.
  - now intros _ (H & _).
  - intros (Hhere & Hrest) Hans.
    apply (IH _ (seen ++ callIDs content) Hrest).
    now apply addContent_answered.
Qed.

Lemma repair_answered (l acc : list chatMessage) :
  referencedFrom [] acc -> referencedFrom (declaredIDs acc) l ->
  referencedFrom [] (fold_left repairStep l acc).
Proof.
  revert acc. induction l as [ | msg l IH ]; intros acc Hacc Hl; simpl.
  - exact Hacc.
  - simpl in Hl. destruct Hl as (Hmsg & Hrest).
    destruct (repairStep_cases acc msg) as [-> | (-> & _)]; apply IH.
    + apply referencedFrom_app. simpl. auto.
    + rewrite declaredIDs_app. unfold declaredIDs at 2. simpl.
      now rewrite app_nil_r.
    + apply referencedFrom_app. split; [ exact Hacc | ]. simpl.
      split; [ intros Habs; discriminate | ]. split; [ | trivial ].
      intros Htool. destruct (Hmsg Htool). split; [ assumption | ].
      apply in_app_iff. now left.
    + rewrite declaredIDs_app. unfold declaredIDs at 2. simpl.
      now rewrite app_nil_r.
Qed.

Lemma systemMessages_answered (req : model.LLMRequest) :
  answered (systemMessages req) [].
Proof.
  destruct (systemMessages_cases req) as [-> | (sysText & ->)]; split; simpl;
    try tauto.
  split; [ discriminate | trivial ].
Qed.

End ToolMessageFacts.

(** C7, as the code has it.  The adapter copies the id of each function
    response into the tool message it builds, and checks nothing.  When
    every function response of the conversation has an id, the id of a
    function call of its own or of an earlier turn, every tool message of
    the returned sequence carries a tool-call id, the id of a tool call of
    an assistant message before it. *)
Theorem tool_messages_answer_declared_calls :
  forall (Marshal : JSON.json -> string) (req : model.LLMRequest),
    spec.responsesAnswerCalls [] (model.Contents req) ->
    spec.toolMessagesReferenced (localllm.convertToMessages Marshal req).
Proof.
  intros Marshal req Hreq. apply referencedFrom_sound.
  unfold localllm.convertToMessages, localllm.repair.
  apply repair_answered; simpl; [ trivial | ].
  unfold localllm.buildMessages.
  apply (build_answered Marshal _ _ [] Hreq), systemMessages_answered.
Qed.

Lemma tool_result_answers_call :
  spec.toolMessagesReferenced
    (localllm.convertToMessages JSON.encode sample.toolThenUser).
Proof.
  apply tool_messages_answer_declared_calls. simpl.
  split; [ intros id' [] | ].
  split; [ intros id' [] | ].
  split; [ | split; [ intros id' [] | exact I ] ].
  intros id' [<- | []]. split; [ discriminate | now left ].
Defined.

(** C7 fails as stated: function responses that answer no call are sent as
    tool messages all the same, the first of them without a tool-call id. *)
Lemma orphan_responses_are_sent :
  localllm.convertToMessages JSON.encode sample.orphanResponses
  = [sample.orphanMessage ""; sample.orphanMessage "call-9"]
  /\ ~ spec.toolMessagesReferenced
         (localllm.convertToMessages JSON.encode sample.orphanResponses).
Proof.
  split; [ reflexivity | ].
  intros H.
  destruct (H [sample.orphanMessage ""] (sample.orphanMessage "call-9") []
              eq_refl eq_refl) as (_ & a & call & [<- | []] & Hrole & _).
  discriminate.
Qed.

(* ===================================================================== *)
(** ** Schema normalization *)
(* ===================================================================== *)

Section MapFacts.
Import JSON.

Lemma mapGet_mapSet (m : object) (k k' : string) (v : json) :
  mapGet (mapSet m k v) k' = if (k =? k')%string then Some v else mapGet m k'.
Proof.
  induction m as [ | [k0 v0] m IH ]; simpl.
  - reflexivity.
  - destruct (k0 =? k)%string eqn:E; simpl.
    + apply String.eqb_eq in E. subst k0.
      now destruct (k =? k')%string.
    + rewrite IH. destruct (k0 =? k')%string eqn:E'; [ | reflexivity ].
      apply String.eqb_eq in E'. subst k0.
      rewrite String.eqb_sym in E. now rewrite E.
Qed.

Lemma keys_mapSet (m : object) (k x : string) (v : json) :
  In x (keys (mapSet m k v)) <-> x = k \/ In x (keys m).
Proof.
  unfold keys. induction m as [ | [k0 v0] m IH ]; simpl.
  - intuition.
  - destruct (k0 =? k)%string eqn:E; simpl.
    + apply String.eqb_eq in E. subst k0. intuition.
    + rewrite IH. intuition.
Qed.

(** Reading a map that a loop wrote, one entry at a time, under the key
    [rename k] with the value [value (rename k) v]. *)
Lemma fold_mapSet_get (rename : string -> string) (value : string -> json -> json)
  (m out : object) (key : string) :
  mapGet (fold_left (fun out kv =>
                       mapSet out (rename (fst kv)) (value (rename (fst kv)) (snd kv)))
            m out) key
  = match lastBinding (fun k => (rename k =? key)%string) m with
    | Some v => Some (value key v)
    | None => mapGet out key
    end.
Proof.
  revert out. induction m as [ | [k v] m IH ]; intros out; simpl.
  - reflexivity.
  - rewrite IH.
    destruct (lastBinding (fun k0 => (rename k0 =? key)%string) m);
      [ reflexivity | ].
    rewrite mapGet_mapSet. destruct (rename k =? key)%string eqn:E.
    + apply String.eqb_eq in E. now subst key.
    + reflexivity.
Qed.

Lemma fold_mapSet_keys (rename : string -> string) (value : string -> json -> json)
  (m out : object) (key : string) :
  In key (keys (fold_left (fun out kv =>
                   mapSet out (rename (fst kv)) (value (rename (fst kv)) (snd kv)))
                  m out))
  <-> In key (keys out) \/ exists k, In k (keys m) /\ rename k = key.
Proof.
  revert out. induction m as [ | [k v] m IH ]; intros out; simpl.
  - split; [ auto | ]. intros [H | (k & [] & _)]. exact H.
  - rewrite IH, keys_mapSet. split.
    + intros [[-> | H] | (k' & Hk' & E)]; eauto.
    + intros [H | (k' & [<- | Hk'] & <-)]; eauto.
Qed.

End MapFacts.

Section SchemaFacts.
Import JSON localllm spec.

Variable ToLower : string -> string.

(** [fixSchemaMap] as one loop over the entries. *)
Lemma fixSchemaMap_fold (m : object) :
  fixSchemaMap ToLower m
  = fold_left (fun out kv =>
                 mapSet out (ToLower (fst kv)) (fixEntry ToLower (ToLower (fst kv)) (snd kv)))
      m [].
Proof.
  unfold fixSchemaMap. cbn [fixSchemaValue].
  generalize (@nil (string * json)) at 2 3.
  induction m as [ | [k v] m IH ]; intros out; [ reflexivity | ].
  cbn [fold_left fst snd]. rewrite <- IH. clear IH.
  f_equal. destruct v as [ | b | n | s | l | val ]; try reflexivity.
  - cbn [fixEntry]. now destruct (ToLower k =? "type")%string.
  - cbn [fixEntry]. destruct (ToLower k =? "properties")%string; [ | reflexivity ].
    do 2 f_equal. unfold fixProperties.
    generalize (@nil (string * json)).
    induction val as [ | [pk pv] val IHval ]; intros newProps; [ reflexivity | ].
    cbn [fold_left fst snd]. rewrite <- IHval.
    now destruct pv.
Qed.

End SchemaFacts.

(** C3.  [fixSchemaMap] writes every entry of the map under the
    lower-cased key, so the keys of the result are the lower-cased keys of
    the schema; of the entries whose keys have the same lower-case form the
    last one visited is kept.  Under the key [type] a string is
    lower-cased; under the key [properties] an object keeps its own keys,
    the property names, and each property that is an object is normalized;
    every other object is normalized; strings under other keys, arrays,
    numbers, booleans and null are kept as they are.  The parameters of a
    declared tool with a schema are the normalized schema, and the example
    of the specification normalizes as stated, in either order of
    visiting its two entries. *)
Theorem schema_normalization_lowercases_keys_and_types :
  (forall ToLower : string -> string,
      (forall m key,
          JSON.mapGet (localllm.fixSchemaMap ToLower m) key
          = option_map (spec.fixEntry ToLower key)
              (JSON.lastBinding (fun k => (ToLower k =? key)%string) m))
      /\ (forall m key,
          In key (JSON.keys (localllm.fixSchemaMap ToLower m))
          <-> exists k, In k (JSON.keys m) /\ ToLower k = key)
      /\ (forall val pk,
          JSON.mapGet (spec.fixProperties ToLower val) pk
          = option_map (spec.fixProperty ToLower)
              (JSON.lastBinding (fun k => (k =? pk)%string) val))
      /\ (forall val pk,
          In pk (JSON.keys (spec.fixProperties ToLower val))
          <-> In pk (JSON.keys val))
      /\ (forall s,
          spec.fixEntry ToLower "type" (JSON.JString s) = JSON.JString (ToLower s))
      /\ (forall key s, key <> "type" ->
          spec.fixEntry ToLower key (JSON.JString s) = JSON.JString s)
      /\ (forall val,
          spec.fixEntry ToLower "properties" (JSON.JObject val)
          = JSON.JObject (spec.fixProperties ToLower val))
      /\ (forall key val, key <> "properties" ->
          spec.fixEntry ToLower key (JSON.JObject val)
          = JSON.JObject (localllm.fixSchemaMap ToLower val))
      /\ (forall plot,
          spec.fixProperty ToLower (JSON.JObject plot)
          = JSON.JObject (localllm.fixSchemaMap ToLower plot))
      /\ (forall pv, (forall plot, pv <> JSON.JObject plot) ->
          spec.fixProperty ToLower pv = pv)
      /\ (forall key l, spec.fixEntry ToLower key (JSON.JArray l) = JSON.JArray l)
      /\ (forall key n, spec.fixEntry ToLower key (JSON.JNumber n) = JSON.JNumber n)
      /\ (forall key b, spec.fixEntry ToLower key (JSON.JBool b) = JSON.JBool b)
      /\ (forall key, spec.fixEntry ToLower key JSON.JNull = JSON.JNull)
      /\ (forall fd params,
          genai.FD_Parameters fd = Some params ->
          localllm.toolParams ToLower fd
          = JSON.JObject (localllm.fixSchemaMap ToLower params)))
  /\ localllm.fixSchemaMap strings.asciiToLower sample.capitalized
     = sample.normalized
  /\ localllm.fixSchemaMap strings.asciiToLower (rev sample.capitalized)
     = rev sample.normalized.
Proof.
  split; [ intros ToLower | split; reflexivity ].
  repeat match goal with |- _ /\ _ => split end.
  - intros m key. rewrite fixSchemaMap_fold.
    rewrite (fold_mapSet_get ToLower (spec.fixEntry ToLower)).
    now destruct (JSON.lastBinding _ m).
  - intros m key. rewrite fixSchemaMap_fold.
    rewrite (fold_mapSet_keys ToLower (spec.fixEntry ToLower)).
    simpl. tauto.
  - intros val pk. unfold spec.fixProperties.
    rewrite (fold_mapSet_get (fun k => k) (fun _ => spec.fixProperty ToLower)).
    now destruct (JSON.lastBinding _ val).
  - intros val pk. unfold spec.fixProperties.
    rewrite (fold_mapSet_keys (fun k => k) (fun _ => spec.fixProperty ToLower)).
    simpl. split.
    + intros [[] | (k & Hk & <-)]. exact Hk.
    + eauto.
  - reflexivity.
  - intros key s H. apply String.eqb_neq in H. simpl. now rewrite H.
  - reflexivity.
  - intros key val H. apply String.eqb_neq in H. simpl. now rewrite H.
  - reflexivity.
  - intros [ | b | n | s | l | plot ] H; try reflexivity.
    now destruct (H plot).
  - reflexivity.
  - reflexivity.
  - reflexivity.
  - reflexivity.
  - intros fd params H. unfold localllm.toolParams. now rewrite H.
Qed.

Lemma declared_tool_is_normalized :
  spec.fixEntry strings.asciiToLower "description" (JSON.JString "Look a Row up")
  = JSON.JString "Look a Row up"
  /\ localllm.toolParams strings.asciiToLower sample.declaredTool
     = JSON.JObject sample.normalized.
Proof.
  destruct (proj1 schema_normalization_lowercases_keys_and_types
              strings.asciiToLower)
    as (_ & _ & _ & _ & _ & Hstring & _ & _ & _ & _ & _ & _ & _ & _ & Htool).
  split.
  - apply Hstring. discriminate.
  - exact (Htool sample.declaredTool sample.capitalized eq_refl).
Defined.

(* ===================================================================== *)
(** ** Response decoding *)
(* ===================================================================== *)




(** C9.  Decoding a response without choices returns the empty response:
    no content, so no text segment and no invocation, and no usage.
    [GenerateContent] yields it as a response, not as an error. *)
Theorem no_choices_decode_to_empty_response :
  forall (Unmarshal : string -> JSON.object * bool)
         (DecodeBody : string -> option localllm.chatResponse)
         (chatResp : localllm.chatResponse),
    localllm.Choices chatResp = [] ->
    localllm.convertToLLMResponse Unmarshal chatResp
    = {| model.Content := None; model.Usage := None |}
    /\ (forall body,
        DecodeBody body = Some chatResp ->
        localllm.receive Unmarshal DecodeBody 200 body
        = localllm.Response {| model.Content := None; model.Usage := None |}).
Proof.
  intros Unmarshal DecodeBody chatResp Hchoices.
  assert (H : localllm.convertToLLMResponse Unmarshal chatResp
              = {| model.Content := None; model.Usage := None |}).
  { unfold localllm.convertToLLMResponse. now rewrite Hchoices. }
  split; [ exact H | ].
  intros body Hbody. unfold localllm.receive. simpl. now rewrite Hbody, H.
Qed.

Lemma no_choices_decode :
  localllm.convertToLLMResponse sample.unmarshalEmptyObject sample.noChoices
  = {| model.Content := None; model.Usage := None |}
  /\ localllm.receive sample.unmarshalEmptyObject
       (fun _ => Some sample.noChoices) 200 "body"
     = localllm.Response {| model.Content := None; model.Usage := None |}.
Proof.
  destruct (no_choices_decode_to_empty_response
              sample.unmarshalEmptyObject (fun _ => Some sample.noChoices)
              sample.noChoices eq_refl) as (Hempty & Hyield).
  split; [ exact Hempty | exact (Hyield "body" eq_refl) ].
Defined.

(* ===================================================================== *)
(** ** The intent classifier *)
(* ===================================================================== *)

Section ScoreFacts.
Import strings math bert classifier_spec.

Lemma Qltb_true (x y : Q) : Qltb x y = true <-> x < y.
Proof.
  unfold Qltb. rewrite negb_true_iff. split; intros H.
  - apply Qnot_le_lt. intros Hle. apply Qle_bool_iff in Hle. congruence.
  - destruct (Qle_bool y x) eqn:E; [ | reflexivity ].
    apply Qle_bool_iff in E. apply Qlt_not_le in H. contradiction.
Qed.

Lemma Qltb_false (x y : Q) : Qltb x y = false <-> y <= x.
Proof.
  split; intros H.
  - destruct (Qlt_le_dec x y) as [Hlt | Hle]; [ | exact Hle ].
    apply Qltb_true in Hlt. congruence.
  - destruct (Qltb x y) eqn:E; [ | reflexivity ].
    apply Qltb_true in E. apply Qlt_not_le in E. contradiction.
Qed.

Lemma prefix_app (p1 p2 s : string) :
  String.prefix (p1 ++ p2) s = true -> String.prefix p1 s = true.
Proof.
  revert s. induction p1 as [ | c p1 IH ]; intros s.
  - now destruct s.
  - destruct s as [ | c' s ]; simpl; [ discriminate | ].
    destruct (ascii_dec c c'); [ apply IH | discriminate ].
Qed.

Lemma HasPrefix_Contains (s p1 p2 : string) :
  HasPrefix s (p1 ++ p2) = true -> Contains s p1 = true.
Proof.
  unfold HasPrefix. intros H. apply prefix_app in H.
  destruct s; cbn [Contains]; now rewrite H.
Qed.

Variable queryLower : string.
Variable words : list string.




(** Keywords that do not occur leave the score as it is. *)
Lemma keywordScore_silent (keywords : list string) :
  (forall keyword, In keyword keywords -> Contains queryLower keyword = false) ->
  keywordScore queryLower words keywords
  = 0 / inject_Z (Z.of_nat (length keywords)).
Proof.
  intros H. unfold keywordScore. f_equal.
  generalize 0. induction keywords as [ | k ks IH ]; intros score; simpl.
  - reflexivity.
  - unfold keywordStep at 2. rewrite (H k) by now left.
    apply IH. intros keyword Hin. apply H. now right.
Qed.

End ScoreFacts.

Section HeuristicFacts.
Import strings math bert classifier_spec.

Variable queryLower : string.

Lemma silent_Visualization_no_chart_words :
  silent queryLower IntentVisualization ->
  containsAny queryLower ["chart"; "graph"; "plot"; "visualize"] = false
  /\ containsAny queryLower ["chart"; "graph"] = false.
Proof.
  intros H. unfold containsAny. simpl.
  rewrite !(H "chart"), !(H "graph"), (H "plot"), (H "visualize");
    simpl; tauto.
Qed.

Lemma silent_General_no_question_prefix :
  silent queryLower IntentGeneral ->
  HasPrefix queryLower "how many" || HasPrefix queryLower "what is" = false.
Proof.
  intros H. apply orb_false_iff. split.
  - destruct (HasPrefix queryLower "how many") eqn:E; [ | reflexivity ].
    apply (HasPrefix_Contains queryLower "how" " many") in E.
    rewrite (H "how") in E by (simpl; tauto). discriminate.
  - destruct (HasPrefix queryLower "what is") eqn:E; [ | reflexivity ].
    apply (HasPrefix_Contains queryLower "what" " is") in E.
    rewrite (H "what") in E by (simpl; tauto). discriminate.
Qed.

(** Without chart words and question words the heuristics can only raise
    the SQL score, by one half, for a word of database structure. *)
Lemma applyHeuristics_silent (scores : scoreMap) :
  silent queryLower IntentVisualization ->
  silent queryLower IntentGeneral ->
  applyHeuristics queryLower scores
  = if containsAny queryLower ["table"; "schema"; "column"; "database"]
    then addScore scores IntentSQLQuery (1 # 2) else scores.
Proof.
  intros Hvis Hgen. unfold applyHeuristics.
  destruct (silent_Visualization_no_chart_words Hvis) as (-> & ->).
  rewrite (silent_General_no_question_prefix Hgen), andb_false_r.
  reflexivity.
Qed.

End HeuristicFacts.

Section LoopFacts.
Import strings math bert classifier_spec.

Variable scores : scoreMap.

(** The loop of [ClassifyWithConfidence] keeps
    [0 <= secondScore <= maxScore]. *)
Lemma topTwo_ordered (order : list Intent) (b : best) :
  0 <= secondScore b /\ secondScore b <= maxScore b ->
  0 <= secondScore (fold_left (topTwoStep scores) order b)
  /\ secondScore (fold_left (topTwoStep scores) order b)
     <= maxScore (fold_left (topTwoStep scores) order b).
Proof.
  revert b. induction order as [ | intent order IH ]; intros b Hb; simpl.
  - exact Hb.
  - apply IH. unfold topTwoStep.
    destruct (Qltb (maxScore b) (scores intent)) eqn:E1; simpl.
    + apply Qltb_true in E1. lra.
    + apply Qltb_false in E1.
      destruct (Qltb (secondScore b) (scores intent)) eqn:E2; simpl.
      * apply Qltb_true in E2. lra.
      * exact Hb.
Qed.

(** Scores that are all zero leave the loops in their start state. *)
Lemma topTwo_all_zero (order : list Intent) :
  (forall intent, scores intent
                  = 0 / inject_Z (Z.of_nat (length (intentPrototypes intent)))) ->
  fold_left (topTwoStep scores) order start = start.
Proof.
  intros H. induction order as [ | intent order IH ]; simpl.
  - reflexivity.
  - unfold topTwoStep at 2. rewrite H.
    destruct intent; simpl; exact IH.
Qed.


End LoopFacts.





(** C6, as the code has it.  The confidence [ClassifyWithConfidence]
    returns lies between 0 and 1, whatever the order of visiting the
    scores.  When no keyword of the three vocabularies occurs in the
    lower-cased query, and neither [schema] nor [column] does (the two
    words of the database-structure heuristic that are in no vocabulary),
    the result is the general intent with confidence 0. *)
Theorem confidence_in_unit_interval :
  forall (ToLower : string -> string) (Fields : string -> list string)
         (order : list bert.Intent) (query : string),
    (0 <= snd (bert.ClassifyWithConfidence ToLower Fields order query)
     /\ snd (bert.ClassifyWithConfidence ToLower Fields order query) <= 1)
    /\ ((forall intent, classifier_spec.silent (ToLower query) intent) ->
        strings.Contains (ToLower query) "schema" = false ->
        strings.Contains (ToLower query) "column" = false ->
        bert.ClassifyWithConfidence ToLower Fields order query
        = (bert.IntentGeneral, 0)).
Proof.
  intros ToLower Fields order query. split.
  - unfold bert.ClassifyWithConfidence.
    set (scores := bert.adjustedScores ToLower Fields query).
    destruct (topTwo_ordered scores order bert.start) as (Hsecond & Hmax).
    { simpl. lra. }
    set (b := fold_left (bert.topTwoStep scores) order bert.start) in *.
    destruct (math.Qltb (bert.maxScore b) (1 # 10)); simpl; [ lra | ].
    destruct (math.Qltb 0 (bert.maxScore b)) eqn:Emax; [ | lra ].
    apply Qltb_true in Emax.
    destruct (math.Qltb 0 (bert.secondScore b)) eqn:Esecond.
    + apply Qltb_true in Esecond. split.
      * apply Qle_shift_div_l; [ exact Emax | lra ].
      * apply Qle_shift_div_r; [ exact Emax | lra ].
    + unfold math.Min.
      destruct (math.Qltb 1 (bert.maxScore b)) eqn:Eone; [ lra | ].
      apply Qltb_false in Eone. lra.
  - intros Hsilent Hschema Hcolumn.
    unfold bert.ClassifyWithConfidence.
    rewrite topTwo_all_zero; [ reflexivity | ].
    intros intent. unfold bert.adjustedScores.
    rewrite (applyHeuristics_silent _ _ (Hsilent bert.IntentVisualization)
               (Hsilent bert.IntentGeneral)).
    replace (bert.containsAny (ToLower query)
               ["table"; "schema"; "column"; "database"]) with false.
    + apply keywordScore_silent, Hsilent.
    + unfold bert.containsAny. simpl.
      rewrite Hschema, Hcolumn.
      rewrite (Hsilent bert.IntentSQLQuery "table") by (simpl; tauto).
      rewrite (Hsilent bert.IntentSQLQuery "database") by (simpl; tauto).
      reflexivity.
Qed.

Lemma greeting_has_no_confidence :
  (0 <= snd (bert.ClassifyWithConfidence strings.asciiToLower
               strings.asciiFields bert.intents "Good morning")
   /\ snd (bert.ClassifyWithConfidence strings.asciiToLower
             strings.asciiFields bert.intents "Good morning") <= 1)
  /\ bert.ClassifyWithConfidence strings.asciiToLower strings.asciiFields
       bert.intents "Good morning"
     = (bert.IntentGeneral, 0).
Proof.
  split.
  - exact (proj1 (confidence_in_unit_interval strings.asciiToLower
                    strings.asciiFields bert.intents "Good morning")).
  - apply (proj2 (confidence_in_unit_interval strings.asciiToLower
                    strings.asciiFields bert.intents "Good morning"));
      [ | reflexivity | reflexivity ].
    intros intent keyword Hin.
    destruct intent; simpl in Hin;
      repeat (destruct Hin as [<- | Hin]; [ reflexivity | ]); contradiction.
Defined.

(** C6 fails as stated.  No keyword of the three vocabularies occurs in the
    query [schema], and in the query [column]; the heuristic for words of
    database structure gives each the SQL score 1/2, so each is an SQL
    query with confidence 1/2, in every order of visiting the scores. *)
Lemma schema_has_no_keyword_but_confidence :
  forallb (fun intent =>
             negb (existsb (strings.Contains (strings.asciiToLower "schema"))
                     (bert.intentPrototypes intent))) bert.intents = true
  /\ map (fun order =>
            let r := classifier_spec.classifyWithConfidence order "schema" in
            (fst r, Qred (snd r))) classifier_spec.orders
     = [(bert.IntentSQLQuery, 1 # 2); (bert.IntentSQLQuery, 1 # 2);
        (bert.IntentSQLQuery, 1 # 2); (bert.IntentSQLQuery, 1 # 2);
        (bert.IntentSQLQuery, 1 # 2); (bert.IntentSQLQuery, 1 # 2)]
  /\ forallb (fun intent =>
                negb (existsb (strings.Contains (strings.asciiToLower "column"))
                        (bert.intentPrototypes intent))) bert.intents = true
  /\ map (fun order =>
            let r := classifier_spec.classifyWithConfidence order "column" in
            (fst r, Qred (snd r))) classifier_spec.orders
     = [(bert.IntentSQLQuery, 1 # 2); (bert.IntentSQLQuery, 1 # 2);
        (bert.IntentSQLQuery, 1 # 2); (bert.IntentSQLQuery, 1 # 2);
        (bert.IntentSQLQuery, 1 # 2); (bert.IntentSQLQuery, 1 # 2)].
Proof. repeat split; vm_compute; reflexivity. Qed.

(** C5, evaluated.  In [Describe the schema and explain it] the SQL score
    and the general score are both 1/2 and the visualization score is 0.
    The loops keep the first of the two that they visit: [Classify] and
    [ClassifyWithConfidence] return the SQL intent in three of the six
    orders and the general intent in the other three.  The confidence is 0
    in all six. *)
Theorem tie_is_decided_by_iteration_order :
  classifier_spec.scoresOf "Describe the schema and explain it"
  = [1 # 2; 0; 1 # 2]
  /\ Forall (fun order => Permutation bert.intents order) classifier_spec.orders
  /\ map (fun order =>
            classifier_spec.classify order "Describe the schema and explain it")
       classifier_spec.orders
     = [bert.IntentSQLQuery; bert.IntentSQLQuery; bert.IntentSQLQuery;
        bert.IntentGeneral; bert.IntentGeneral; bert.IntentGeneral]
  /\ map (fun order =>
            let r := classifier_spec.classifyWithConfidence order
                       "Describe the schema and explain it" in
            (fst r, Qred (snd r))) classifier_spec.orders
     = [(bert.IntentSQLQuery, 0); (bert.IntentSQLQuery, 0);
        (bert.IntentSQLQuery, 0); (bert.IntentGeneral, 0);
        (bert.IntentGeneral, 0); (bert.IntentGeneral, 0)].
Proof.
  split; [ vm_compute; reflexivity | ].
  split.
  - unfold classifier_spec.orders, bert.intents.
    apply Forall_cons; [ apply Permutation_refl | ].
    apply Forall_cons; [ apply perm_skip, perm_swap | ].
    apply Forall_cons; [ apply perm_swap | ].
    apply Forall_cons.
    { apply perm_trans with
        [bert.IntentVisualization; bert.IntentSQLQuery; bert.IntentGeneral];
        [ apply perm_swap | apply perm_skip, perm_swap ]. }
    apply Forall_cons.
    { apply perm_trans with
        [bert.IntentSQLQuery; bert.IntentGeneral; bert.IntentVisualization];
        [ apply perm_skip, perm_swap | apply perm_swap ]. }
    apply Forall_cons; [ | apply Forall_nil ].
    apply perm_trans with
      [bert.IntentSQLQuery; bert.IntentGeneral; bert.IntentVisualization];
      [ apply perm_skip, perm_swap | ].
    apply perm_trans with
      [bert.IntentGeneral; bert.IntentSQLQuery; bert.IntentVisualization];
      [ apply perm_swap | apply perm_skip, perm_swap ].
  - split; vm_compute; reflexivity.
Qed.

(* ===================================================================== *)
(** ** Further properties of request construction *)
(* ===================================================================== *)

Section ShapeFacts.
Import JSON localllm spec facts.

Variable Marshal : json -> string.

Lemma repairStep_snoc (front : list chatMessage) (x msg : chatMessage) :
  repairStep (front ++ [x]) msg
  = (front ++ [x])
    ++ (if (Role x =? "tool")%string && (Role msg =? "user")%string
        then [synthetic] else [])
    ++ [msg].
Proof.
  unfold repairStep. rewrite lastMessage_snoc.
  replace (isNil (front ++ [x])) with false by (now destruct front).
  destruct (Role msg =? "user")%string, (Role x =? "tool")%string; simpl;
    rewrite <- ?app_assoc; reflexivity.
Qed.

Lemma repairStep_nil (msg : chatMessage) : repairStep [] msg = [msg].
Proof. unfold repairStep. simpl. now rewrite andb_false_r. Qed.

(** What the loop holds after a prefix that ends in [x]. *)
Lemma repair_fold_length (l front : list chatMessage) (x : chatMessage) :
  length (fold_left repairStep l (front ++ [x]))
  = (length (front ++ [x]) + length l + countUserAfterTool (x :: l))%nat.
Proof.
  revert front x. induction l as [ | msg l IH ]; intros front x.
  - simpl. lia.
  - cbn [fold_left]. rewrite repairStep_snoc.
    rewrite !app_assoc. rewrite IH. cbn [countUserAfterTool length].
    rewrite !length_app.
    destruct ((Role x =? "tool")%string && (Role msg =? "user")%string);
      simpl; lia.
Qed.

Lemma repair_fold_In (l front : list chatMessage) (x m : chatMessage) :
  In m (fold_left repairStep l (front ++ [x]))
  <-> In m (front ++ [x]) \/ In m l
      \/ (m = synthetic /\ userAfterTool (x :: l) = true).
Proof.
  revert front x. induction l as [ | msg l IH ]; intros front x.
  - simpl. split; [ auto | ]. intros [H | [[] | (_ & H)]]; [ exact H | discriminate ].
  - cbn [fold_left]. rewrite repairStep_snoc.
    rewrite !app_assoc. rewrite IH. cbn [userAfterTool].
    destruct ((Role x =? "tool")%string && (Role msg =? "user")%string);
      simpl; rewrite ?app_nil_r, !in_app_iff; simpl; intuition.
Qed.

Lemma separated_userAfterTool (l : list chatMessage) :
  separated l -> userAfterTool l = false.
Proof.
  intros H. destruct (userAfterTool l) eqn:E; [ exfalso | reflexivity ].
  apply userAfterTool_adjacent in E. destruct E as (a & b & Hadj & Ha & Hb).
  exact (H a b Hadj Ha Hb).
Qed.

End ShapeFacts.

(** X1.  The repair pass is idempotent, and it returns its input unchanged
    exactly when no user message comes right after a tool message. *)
Theorem repair_idempotent :
  forall l : list localllm.chatMessage,
    localllm.repair (localllm.repair l) = localllm.repair l
    /\ (localllm.repair l = l <-> spec.userAfterTool l = false).
Proof.
  intros l. split.
  - apply repair_not_triggered, separated_userAfterTool, repair_separated.
  - split.
    + intros H. apply separated_userAfterTool. rewrite <- H.
      apply repair_separated.
    + apply repair_not_triggered.
Qed.

(** X2.  The repair pass keeps every message and adds one message, the
    synthetic one, for each user message that comes right after a tool
    message: the result is longer by the number of these places, and its
    messages are those of the input and, if there is such a place, the
    synthetic message. *)
Theorem repair_adds_one_message_per_tool_user_pair :
  forall (l : list localllm.chatMessage) (m : localllm.chatMessage),
    length (localllm.repair l) = (length l + facts.countUserAfterTool l)%nat
    /\ (In m (localllm.repair l)
        <-> In m l \/ (m = localllm.synthetic /\ spec.userAfterTool l = true)).
Proof.
  intros [ | x l ] m.
  - simpl. split; [ reflexivity | ]. split; [ auto | ].
    intros [[] | (_ & H)]. discriminate.
  - unfold localllm.repair. cbn [fold_left]. rewrite repairStep_nil.
    change [x] with ([] ++ [x]). split.
    + rewrite repair_fold_length. simpl. lia.
    + rewrite repair_fold_In. simpl. tauto.
Qed.

Section TurnFacts.
Import JSON localllm spec facts.

Variable Marshal : json -> string.

(** The two outcomes of [addText]. *)
Lemma addText_cases (messages : list chatMessage) (role text : string) :
  addText messages role text = messages ++ [textMessage role text]
  \/ exists front x,
       messages = front ++ [x] /\ mergeTarget x role
       /\ addText messages role text = front ++ [appendContent x text].
Proof.
  unfold addText.
  destruct (splitLast messages) as [ [front x] | ] eqn:Hsplit; [ | now left ].
  destruct (canMerge x role) eqn:Hmerge; [ | now left ].
  right. apply splitLast_Some in Hsplit. apply canMerge_spec in Hmerge.
  eauto.
Qed.

(** What one turn does to the messages: it may rewrite the content of the
    last message, and it appends messages of the three turn roles. *)
Lemma addContent_cases (messages : list chatMessage) (content : genai.Content) :
  let t := scanParts Marshal (genai.Parts content) in
  let tools := map toolMessage (funcResponses t) in
  (funcCalls t <> []
   /\ addContent Marshal messages content
      = messages
        ++ {| Role := "assistant"; Content := textContent t;
              ToolCalls := funcCalls t; ToolCallID := "" |} :: tools)
  \/ (funcCalls t = []
      /\ (addContent Marshal messages content = messages ++ tools
          \/ addContent Marshal messages content
             = messages ++ textMessage (wireRole content) (textContent t) :: tools
          \/ exists front x,
               messages = front ++ [x] /\ mergeTarget x (wireRole content)
               /\ addContent Marshal messages content
                  = front ++ appendContent x (textContent t) :: tools)).
Proof.
  intros t tools. unfold addContent. fold t. fold tools.
  destruct (funcCalls t) as [ | call calls ] eqn:Hcalls; simpl.
  - right. split; [ reflexivity | ].
    destruct (textContent t =? "")%string; simpl; [ now left | right ].
    destruct (addText_cases messages (wireRole content) (textContent t))
      as [-> | (front & x & -> & Hx & ->)].
    + left. now rewrite <- app_assoc.
    + right. exists front, x. rewrite <- app_assoc. auto.
  - left. split; [ discriminate | ]. now rewrite <- app_assoc.
Qed.







End TurnFacts.


Section IdentifierFacts.
Import JSON localllm spec facts.

Variable Marshal : json -> string.

Lemma answeredIDs_app (l1 l2 : list chatMessage) :
  answeredIDs (l1 ++ l2) = answeredIDs l1 ++ answeredIDs l2.
Proof. unfold answeredIDs. now rewrite filter_app, map_app. Qed.

Lemma calledIDs_app (l1 l2 : list chatMessage) :
  calledIDs (l1 ++ l2) = calledIDs l1 ++ calledIDs l2.
Proof. apply flat_map_app. Qed.

Lemma answeredIDs_toolMessages (responses : list funcResponse) :
  answeredIDs (map toolMessage responses) = map id responses.
Proof.
  induction responses as [ | fr responses IH ]; [ reflexivity | ].
  unfold answeredIDs in *. simpl. now rewrite IH.
Qed.

Lemma calledIDs_toolMessages (responses : list funcResponse) :
  calledIDs (map toolMessage responses) = [].
Proof. induction responses; simpl; auto. Qed.

(** One turn adds the ids of its responses and of its calls. *)
Lemma addContent_ids (messages : list chatMessage) (content : genai.Content) :
  answeredIDs (addContent Marshal messages content)
  = answeredIDs messages ++ responseIDs content
  /\ calledIDs (addContent Marshal messages content)
     = calledIDs messages ++ callIDs content.
Proof.
  rewrite <- (scanParts_responses Marshal), <- (scanParts_calls Marshal).
  destruct (addContent_cases Marshal messages content)
    as [(_ & ->) | (Hcalls & [-> | [-> | (front & x & -> & Hx & ->)]])];
    try rewrite Hcalls;
    change (?a :: map toolMessage ?r) with ([a] ++ map toolMessage r);
    rewrite ?answeredIDs_app, ?calledIDs_app,
      ?answeredIDs_toolMessages, ?calledIDs_toolMessages;
    simpl; rewrite ?app_nil_r; auto.
  - split; [ | reflexivity ]. unfold answeredIDs at 2, isRole. simpl.
    destruct (wireRole_cases content) as [-> | ->]; reflexivity.
  - split; [ | reflexivity ]. rewrite <- app_assoc. do 2 f_equal.
    unfold answeredIDs, isRole. simpl.
    now destruct (Role x =? "tool")%string.
Qed.

Lemma build_ids (contents : list genai.Content) (messages : list chatMessage) :
  answeredIDs (fold_left (addContent Marshal) contents messages)
  = answeredIDs messages ++ flat_map responseIDs contents
  /\ calledIDs (fold_left (addContent Marshal) contents messages)
     = calledIDs messages ++ flat_map callIDs contents.
Proof.
  revert messages. induction contents as [ | content contents IH ];
    intros messages; simpl.
  - now rewrite !app_nil_r.
  - destruct (IH (addContent Marshal messages content)) as (-> & ->).
    destruct (addContent_ids messages content) as (-> & ->).
    now rewrite <- !app_assoc.
Qed.

Lemma repair_ids (l acc : list chatMessage) :
  answeredIDs (fold_left repairStep l acc) = answeredIDs acc ++ answeredIDs l
  /\ calledIDs (fold_left repairStep l acc) = calledIDs acc ++ calledIDs l.
Proof.
  revert acc. induction l as [ | msg l IH ]; intros acc.
  - unfold answeredIDs, calledIDs. simpl. now rewrite !app_nil_r.
  - cbn [fold_left]. destruct (IH (repairStep acc msg)) as (-> & ->).
    change (msg :: l) with ([msg] ++ l).
    rewrite (answeredIDs_app [msg] l), (calledIDs_app [msg] l).
    destruct (repairStep_cases acc msg) as [-> | (-> & _)].
    + rewrite answeredIDs_app, calledIDs_app. now rewrite <- !app_assoc.
    + change [synthetic; msg] with ([synthetic] ++ [msg]).
      rewrite (answeredIDs_app acc), (calledIDs_app acc).
      rewrite (answeredIDs_app [synthetic]), (calledIDs_app [synthetic]).
      change (answeredIDs [synthetic]) with (@nil string).
      change (calledIDs [synthetic]) with (@nil string).
      simpl. now rewrite <- !app_assoc.
Qed.

End IdentifierFacts.

(** X4.  Function responses and function calls are neither dropped, nor
    merged, nor reordered: the tool-call ids of the tool messages the
    adapter returns are the ids of the function responses of the
    conversation, in order, and the ids of the tool calls of its messages
    are the ids of the function calls of the conversation, in order. *)
Theorem calls_and_responses_are_sent_in_order :
  forall (Marshal : JSON.json -> string) (req : model.LLMRequest),
    facts.answeredIDs (localllm.convertToMessages Marshal req)
    = flat_map spec.responseIDs (model.Contents req)
    /\ facts.calledIDs (localllm.convertToMessages Marshal req)
       = flat_map spec.callIDs (model.Contents req).
Proof.
  intros Marshal req.
  unfold localllm.convertToMessages, localllm.repair, localllm.buildMessages.
  destruct (repair_ids
              (fold_left (localllm.addContent Marshal) (model.Contents req)
                 (localllm.systemMessages req)) []) as (-> & ->).
  destruct (build_ids Marshal (model.Contents req) (localllm.systemMessages req))
    as (-> & ->).
  destruct (systemMessages_cases req) as [-> | (sysText & ->)]; auto.
Qed.

Section AlternationFacts.
Import JSON localllm spec facts.

Variable Marshal : json -> string.

Lemma adjacent_extend (a b : chatMessage) (l back : list chatMessage) :
  adjacent a b l -> adjacent a b (l ++ back).
Proof.
  intros (front & back0 & ->). exists front, (back0 ++ back).
  now rewrite <- app_assoc.
Qed.

Lemma adjacent_cons (a b x : chatMessage) (l : list chatMessage) :
  adjacent a b l -> adjacent a b (x :: l).
Proof. intros (front & back & ->). now exists (x :: front), back. Qed.

(** The neighbours in a list with one message put in. *)
Lemma adjacent_insert (a b s : chatMessage) (p q : list chatMessage) :
  adjacent a b (p ++ s :: q) ->
  adjacent a b (p ++ q)
  \/ (b = s /\ exists p', p = p' ++ [a])
  \/ (a = s /\ exists q', q = b :: q').
Proof.
  revert a b. induction p as [ | y p IH ]; intros a b (front & back & E).
  - destruct front as [ | x front ]; simpl in E; inversion E; subst.
    + right. right. eauto.
    + left. now exists front, back.
  - destruct front as [ | x front ]; simpl in E; inversion E as [[Hy Hrest]].
    + destruct p as [ | z p ]; simpl in Hrest; inversion Hrest; subst.
      * right. left. split; [ reflexivity | now exists [] ].
      * left. now exists [], (p ++ q).
    + subst x. destruct (IH a b) as [H | [(-> & p' & ->) | (-> & q' & ->)]].
      * now exists front, back.
      * left. now apply adjacent_cons.
      * right. left. split; [ reflexivity | now exists (y :: p') ].
      * right. right. eauto.
Qed.

Lemma noTextAfterSameRole_snoc (l : list chatMessage) (m : chatMessage) :
  noTextAfterSameRole l ->
  (forall front x, l = front ++ [x] ->
                   plainTextMessage m -> ~ mergeTarget x (Role m)) ->
  noTextAfterSameRole (l ++ [m]).
Proof.
  intros Hl Hlast a b Hadj Hb.
  apply snoc_adjacent in Hadj. destruct Hadj as [Hadj | (-> & front & ->)].
  - now apply Hl.
  - now apply (Hlast front a).
Qed.

Lemma noTextAfterSameRole_app (l back : list chatMessage) :
  noTextAfterSameRole l ->
  Forall (fun m => ~ plainTextMessage m) back ->
  noTextAfterSameRole (l ++ back).
Proof.
  revert l. induction back as [ | m back IH ]; intros l Hl Hback.
  - now rewrite app_nil_r.
  - inversion Hback as [ | ? ? Hm Hback' ]; subst.
    change (m :: back) with ([m] ++ back). rewrite app_assoc.
    apply IH; [ | exact Hback' ].
    apply noTextAfterSameRole_snoc; [ exact Hl | ].
    intros front x _ Hplain. contradiction.
Qed.

Lemma toolMessages_not_plain (responses : list funcResponse) :
  Forall (fun m => ~ plainTextMessage m) (map toolMessage responses).
Proof.
  induction responses; simpl; constructor; auto.
  intros ([H | H] & _); discriminate.
Qed.

Lemma addContent_alternates (messages : list chatMessage) (content : genai.Content) :
  noTextAfterSameRole messages ->
  noTextAfterSameRole (addContent Marshal messages content).
Proof.
  intros Hinv. unfold addContent.
  apply noTextAfterSameRole_app; [ | apply toolMessages_not_plain ].
  destruct (funcCalls (scanParts Marshal (genai.Parts content)))
    as [ | call calls ] eqn:Hcalls; simpl.
  - destruct (textContent (scanParts Marshal (genai.Parts content)) =? "")%string;
      simpl; [ exact Hinv | ].
    unfold addText.
    destruct (splitLast messages) as [ [front x] | ] eqn:Hsplit.
    + apply splitLast_Some in Hsplit. subst messages.
      destruct (canMerge x (wireRole content)) eqn:Hmerge.
      * intros a b Hadj Hb.
        apply snoc_adjacent in Hadj.
        destruct Hadj as [Hadj | (-> & front' & ->)].
        -- apply Hinv; [ | exact Hb ]. now apply adjacent_extend.
        -- apply (Hinv a x); [ | exact Hb ].
           exists front', []. now rewrite <- app_assoc.
      * apply noTextAfterSameRole_snoc; [ exact Hinv | ].
        intros front' x' E _. apply app_inj_tail in E. destruct E as (_ & <-).
        simpl. intros H. apply canMerge_spec in H. congruence.
    + apply noTextAfterSameRole_snoc; [ exact Hinv | ].
      intros front x ->. rewrite splitLast_snoc in Hsplit. discriminate.
  - apply noTextAfterSameRole_snoc; [ exact Hinv | ].
    intros front x _ (_ & Habs). discriminate.
Qed.

Lemma repair_alternates (l acc : list chatMessage) :
  noTextAfterSameRole (acc ++ l) ->
  noTextAfterSameRole (fold_left repairStep l acc).
Proof.
  revert acc. induction l as [ | msg l IH ]; intros acc Hinv.
  - now rewrite app_nil_r in Hinv.
  - cbn [fold_left]. apply IH.
    destruct (repairStep_cases acc msg)
      as [-> | (-> & Hmsg & front & t & -> & Ht)].
    + now rewrite <- app_assoc.
    + rewrite <- !app_assoc. simpl. rewrite <- app_assoc in Hinv. simpl in Hinv.
      intros a b Hadj Hb.
      change (front ++ t :: synthetic :: msg :: l)
        with (front ++ [t] ++ synthetic :: msg :: l) in Hadj.
      rewrite app_assoc in Hadj. apply adjacent_insert in Hadj.
      destruct Hadj as [Hadj | [(-> & p' & E) | (-> & q' & E)]].
      * rewrite <- app_assoc in Hadj. now apply Hinv.
      * apply app_inj_tail in E. destruct E as (_ & ->).
        intros (Habs & _). simpl in Habs. congruence.
      * inversion E; subst. intros (Habs & _). simpl in Habs. congruence.
Qed.

End AlternationFacts.

(** X5.  In the sequence the adapter returns, no text message (role user
    or assistant, no tool calls) comes right after a message of the same
    role that has no tool calls and no tool-call id: what could be merged
    has been merged, and the repair pass does not undo it. *)
Theorem no_text_message_after_its_merge_target :
  forall (Marshal : JSON.json -> string) (req : model.LLMRequest),
    spec.noTextAfterSameRole (localllm.convertToMessages Marshal req).
Proof.
  intros Marshal req.
  unfold localllm.convertToMessages, localllm.repair.
  apply repair_alternates. simpl.
  unfold localllm.buildMessages.
  assert (Hstart : spec.noTextAfterSameRole (localllm.systemMessages req)).
  { intros a b (front & back & E).
    destruct (systemMessages_cases req) as [H | (sysText & H)];
      rewrite H in E; destruct front as [ | x [ | y front ] ]; discriminate. }
  revert Hstart. generalize (localllm.systemMessages req).
  induction (model.Contents req) as [ | content contents IH ];
    intros messages Hinv; simpl.
  - exact Hinv.
  - apply IH, addContent_alternates, Hinv.
Qed.

(* ===================================================================== *)
(** ** A decoded response as the next turn *)
(* ===================================================================== *)

Section RoundTripFacts.
Import JSON localllm spec facts.

Variable Marshal : json -> string.
Variable Unmarshal : string -> object * bool.



End RoundTripFacts.



(* ===================================================================== *)
(** ** Further properties of the tool declarations and their schemas *)
(* ===================================================================== *)

Section ToolFacts.
Import JSON localllm spec facts.

Variable ToLower : string -> string.


End ToolFacts.



Section WriteFacts.
Import JSON.

(** Induction on a JSON value, with the property of every member. *)
Lemma json_induction (P : json -> Prop)
  (HNull : P JNull)
  (HBool : forall b, P (JBool b))
  (HNumber : forall n, P (JNumber n))
  (HString : forall s, P (JString s))
  (HArray : forall l, Forall P l -> P (JArray l))
  (HObject : forall m, Forall (fun kv => P (snd kv)) m -> P (JObject m)) :
  forall v, P v.
Proof.
  fix IH 1.
  intros [ | b | n | s | l | m ].
  - exact HNull.
  - apply HBool.
  - apply HNumber.
  - apply HString.
  - apply HArray. induction l as [ | x l IHl ]; constructor;
      [ apply IH | exact IHl ].
  - apply HObject. induction m as [ | [k x] m IHm ]; constructor;
      [ apply IH | exact IHm ].
Qed.

Lemma mapSet_In (m : object) (k k0 : string) (v v0 : json) :
  In (k, v) (mapSet m k0 v0) -> (k, v) = (k0, v0) \/ In (k, v) m.
Proof.
  induction m as [ | [k1 v1] m IH ]; simpl.
  - intros [H | []]. now left.
  - destruct (k1 =? k0)%string; simpl.
    + intros [H | H]; auto.
    + intros [H | H]; auto. destruct (IH H); auto.
Qed.

Lemma mapSet_NoDup (m : object) (k : string) (v : json) :
  NoDup (keys m) -> NoDup (keys (mapSet m k v)).
Proof.
  unfold keys. induction m as [ | [k1 v1] m IH ]; simpl; intros Hnd.
  - constructor; [ intros [] | constructor ].
  - inversion Hnd as [ | ? ? Hnotin Hnd' ]; subst.
    destruct (k1 =? k)%string eqn:E; simpl.
    + apply String.eqb_eq in E. subst k1. now constructor.
    + constructor; [ | now apply IH ].
      intros Hin. apply (keys_mapSet m k k1 v) in Hin.
      destruct Hin as [-> | Hin]; [ | contradiction ].
      rewrite String.eqb_refl in E. discriminate.
Qed.

Lemma mapSet_fresh (m : object) (k : string) (v : json) :
  ~ In k (keys m) -> mapSet m k v = m ++ [(k, v)].
Proof.
  unfold keys. induction m as [ | [k1 v1] m IH ]; simpl; intros Hfresh.
  - reflexivity.
  - destruct (k1 =? k)%string eqn:E.
    + apply String.eqb_eq in E. subst k1. exfalso. auto.
    + rewrite IH; auto.
Qed.

Variable rename : string -> string.
Variable value : string -> json -> json.

Lemma write_In (m out : object) (k : string) (v : json) :
  In (k, v)
    (fold_left (fun out kv =>
                  mapSet out (rename (fst kv)) (value (rename (fst kv)) (snd kv)))
       m out) ->
  In (k, v) out
  \/ exists k0 v0, In (k0, v0) m /\ k = rename k0 /\ v = value (rename k0) v0.
Proof.
  revert out. induction m as [ | [k1 v1] m IH ]; intros out; simpl.
  - auto.
  - intros H. destruct (IH _ H) as [Hin | (k0 & v0 & Hin & Hk & Hv)].
    + apply mapSet_In in Hin. destruct Hin as [Heq | Hin]; [ | auto ].
      inversion Heq; subst. right. exists k1, v1. auto.
    + right. exists k0, v0. auto.
Qed.

Lemma write_NoDup (m out : object) :
  NoDup (keys out) ->
  NoDup (keys (fold_left (fun out kv =>
                  mapSet out (rename (fst kv)) (value (rename (fst kv)) (snd kv)))
                 m out)).
Proof.
  revert out. induction m as [ | [k1 v1] m IH ]; intros out Hnd; simpl.
  - exact Hnd.
  - apply IH, mapSet_NoDup, Hnd.
Qed.

(** Writing a map whose keys and values the loop leaves alone copies it. *)
Lemma write_fixed (m out : object) :
  NoDup (keys (out ++ m)) ->
  (forall k v, In (k, v) m -> rename k = k /\ value k v = v) ->
  fold_left (fun out kv =>
               mapSet out (rename (fst kv)) (value (rename (fst kv)) (snd kv)))
    m out
  = out ++ m.
Proof.
  revert out. induction m as [ | [k1 v1] m IH ]; intros out Hnd Hfix; simpl.
  - now rewrite app_nil_r.
  - destruct (Hfix k1 v1) as (Hk & Hv); [ now left | ].
    rewrite Hk, Hv.
    assert (Hfresh : ~ In k1 (keys out)).
    { unfold keys in *. rewrite map_app in Hnd. simpl in Hnd.
      apply NoDup_remove_2 in Hnd. intros Hin. apply Hnd.
      apply in_app_iff. now left. }
    rewrite (mapSet_fresh _ _ _ Hfresh).
    rewrite IH.
    + now rewrite <- app_assoc.
    + now rewrite <- app_assoc.
    + intros k v Hin. apply Hfix. now right.
Qed.

End WriteFacts.

Section IdempotenceFacts.
Import JSON localllm spec.

Variable ToLower : string -> string.
Hypothesis ToLower_idempotent : forall s, ToLower (ToLower s) = ToLower s.

Lemma fixSchemaMap_NoDup (m : object) : NoDup (keys (fixSchemaMap ToLower m)).
Proof. rewrite fixSchemaMap_fold. apply write_NoDup. constructor. Qed.

Lemma fixSchemaMap_twice_at (v : json) :
  forall m, v = JObject m ->
    fixSchemaMap ToLower (fixSchemaMap ToLower m) = fixSchemaMap ToLower m
    /\ fixProperties ToLower (fixProperties ToLower m) = fixProperties ToLower m.
Proof.
  induction v as [ | | | | | m0 IH ] using json_induction;
    intros m Hm; try discriminate.
  inversion Hm; subst m0. clear Hm. rewrite Forall_forall in IH. split.
  - rewrite (fixSchemaMap_fold ToLower (fixSchemaMap ToLower m)).
    rewrite (write_fixed ToLower (fixEntry ToLower) _ []);
      [ reflexivity | apply fixSchemaMap_NoDup | ].
    intros k v Hin. rewrite fixSchemaMap_fold in Hin.
    apply write_In in Hin. destruct Hin as [[] | (k0 & v0 & Hin & -> & ->)].
    split; [ apply ToLower_idempotent | ].
    specialize (IH (k0, v0) Hin). simpl in IH.
    destruct v0 as [ | b | n | s | l | val ]; try reflexivity.
    + simpl. destruct (ToLower k0 =? "type")%string eqn:E; simpl; rewrite E;
        [ now rewrite ToLower_idempotent | reflexivity ].
    + destruct (IH val eq_refl) as (Hschema & Hprops). simpl.
      destruct (ToLower k0 =? "properties")%string eqn:E; simpl; rewrite E;
        [ now rewrite Hprops | now rewrite Hschema ].
  - unfold fixProperties at 1.
    rewrite (write_fixed (fun k => k) (fun _ => fixProperty ToLower) _ []);
      [ reflexivity
      | simpl; unfold fixProperties;
        apply (write_NoDup (fun k => k) (fun _ => fixProperty ToLower));
        constructor
      | ].
    intros k v Hin. unfold fixProperties in Hin.
    apply (write_In (fun k => k) (fun _ => fixProperty ToLower)) in Hin.
    destruct Hin as [[] | (k0 & v0 & Hin & -> & ->)].
    split; [ reflexivity | ].
    specialize (IH (k0, v0) Hin). simpl in IH.
    destruct v0 as [ | b | n | s | l | plot ]; try reflexivity.
    destruct (IH plot eq_refl) as (Hschema & _). simpl. now rewrite Hschema.
Qed.

End IdempotenceFacts.

Lemma asciiToLower_idempotent (s : string) :
  strings.asciiToLower (strings.asciiToLower s) = strings.asciiToLower s.
Proof.
  induction s as [ | c s IH ]; simpl; [ reflexivity | ].
  rewrite IH. f_equal.
  destruct c as [[] [] [] [] [] [] [] []]; reflexivity.
Qed.

(** X8.  When lower-casing twice is lower-casing once, as it is for
    [strings.ToLower], normalizing a normalized schema changes nothing; and
    no key occurs twice in a normalized schema. *)
Theorem schema_normalization_idempotent :
  forall (ToLower : string -> string) (m : JSON.object),
    (forall s, ToLower (ToLower s) = ToLower s) ->
    localllm.fixSchemaMap ToLower (localllm.fixSchemaMap ToLower m)
    = localllm.fixSchemaMap ToLower m
    /\ NoDup (JSON.keys (localllm.fixSchemaMap ToLower m)).
Proof.
  intros ToLower m Hidem. split.
  - exact (proj1 (fixSchemaMap_twice_at ToLower Hidem (JSON.JObject m) m eq_refl)).
  - apply fixSchemaMap_NoDup.
Qed.

Lemma normalized_example_is_stable :
  localllm.fixSchemaMap strings.asciiToLower
    (localllm.fixSchemaMap strings.asciiToLower sample.capitalized)
  = localllm.fixSchemaMap strings.asciiToLower sample.capitalized.
Proof.
  exact (proj1 (schema_normalization_idempotent strings.asciiToLower
                  sample.capitalized asciiToLower_idempotent)).
Defined.

(* ===================================================================== *)
(** ** The adapter's endpoint and the configuration *)
(* ===================================================================== *)

Section EndpointFacts.
Import strings.

Lemma substring_all (t : string) : substring 0 (String.length t) t = t.
Proof. induction t as [ | c t IH ]; simpl; [ reflexivity | now rewrite IH ]. Qed.

Lemma substring_front (u t : string) :
  substring 0 (String.length u) (u ++ t) = u.
Proof.
  induction u as [ | c u IH ]; simpl.
  - now destruct t.
  - now rewrite IH.
Qed.

Lemma substring_back (u t : string) :
  substring (String.length u) (String.length t) (u ++ t) = t.
Proof.
  induction u as [ | c u IH ]; simpl.
  - apply substring_all.
  - exact IH.
Qed.

Lemma length_append (u t : string) :
  String.length (u ++ t) = (String.length u + String.length t)%nat.
Proof. induction u as [ | c u IH ]; simpl; [ reflexivity | now rewrite IH ]. Qed.

Lemma TrimSuffix_append (u t : string) : TrimSuffix (u ++ t) t = u.
Proof.
  unfold TrimSuffix, HasSuffix. rewrite length_append.
  replace (String.length u + String.length t - String.length t)%nat
    with (String.length u) by lia.
  rewrite substring_back, String.eqb_refl, substring_front.
  replace (String.length t <=? String.length u + String.length t)%nat
    with true by (symmetry; apply Nat.leb_le; lia).
  reflexivity.
Qed.

End EndpointFacts.

(** X9.  The adapter that [New] makes never has an empty model name: an
    empty one is replaced by [local-model].  One slash at the end of the
    base URL is dropped, so that a base URL with and without it gives the
    same request URL, with one slash before [v1]. *)
Theorem adapter_has_model_name_and_one_slash :
  forall (url modelName : string),
    localllm.LLMName
      (localllm.New {| localllm.BaseURL := url; localllm.Model := modelName |})
    <> ""
    /\ (modelName <> "" ->
        localllm.LLMName
          (localllm.New {| localllm.BaseURL := url; localllm.Model := modelName |})
        = modelName)
    /\ localllm.requestURL
         (localllm.New {| localllm.BaseURL := (url ++ "/")%string;
                          localllm.Model := modelName |})
       = (url ++ "/v1/chat/completions")%string
    /\ (strings.HasSuffix url "/" = false ->
        localllm.requestURL
          (localllm.New {| localllm.BaseURL := url; localllm.Model := modelName |})
        = (url ++ "/v1/chat/completions")%string).
Proof.
  intros url modelName. unfold localllm.LLMName, localllm.requestURL. simpl.
  repeat split.
  - destruct (modelName =? "")%string eqn:E; [ discriminate | ].
    now apply String.eqb_neq.
  - intros H. apply String.eqb_neq in H. now rewrite H.
  - now rewrite TrimSuffix_append.
  - intros H. unfold strings.TrimSuffix. now rewrite H.
Qed.

Lemma localhost_endpoint :
  localllm.LLMName
    (localllm.New {| localllm.BaseURL := "http://localhost:1234";
                     localllm.Model := "mistral" |})
  = "mistral"
  /\ localllm.requestURL
       (localllm.New {| localllm.BaseURL := "http://localhost:1234";
                        localllm.Model := "mistral" |})
     = "http://localhost:1234/v1/chat/completions".
Proof.
  destruct (adapter_has_model_name_and_one_slash "http://localhost:1234" "mistral")
    as (_ & Hname & _ & Hurl).
  split; [ apply Hname; discriminate | apply Hurl; reflexivity ].
Defined.

Lemma Validate_None_iff (c : config.Config) :
  config.Validate c = None
  <-> config.DatabaseURL c <> ""
      /\ (config.LLMProvider c = "gemini" -> config.GoogleAPIKey c <> "")
      /\ (config.LLMProvider c = "local" -> config.LocalLLMURL c <> "").
Proof.
  unfold config.Validate, config.LLMProviderGemini, config.LLMProviderLocal.
  destruct (config.DatabaseURL c =? "")%string eqn:Edb.
  - apply String.eqb_eq in Edb. split; [ discriminate | ].
    intros (H & _). contradiction.
  - apply String.eqb_neq in Edb.
    destruct (config.LLMProvider c =? "gemini")%string eqn:Eg;
      destruct (config.GoogleAPIKey c =? "")%string eqn:Ek;
      destruct (config.LLMProvider c =? "local")%string eqn:El;
      destruct (config.LocalLLMURL c =? "")%string eqn:Eu;
      simpl;
      repeat match goal with
             | H : (_ =? _)%string = true |- _ => apply String.eqb_eq in H
             | H : (_ =? _)%string = false |- _ => apply String.eqb_neq in H
             end;
      (split; intros H; [ try discriminate H; tauto
                        | try reflexivity; exfalso; tauto ]).
Qed.

Lemma Validate_local_URL (c : config.Config) :
  config.LocalLLMURL c <> "" ->
  config.Validate c <> Some config.ErrMissingLocalLLMURL.
Proof.
  intros Hurl. unfold config.Validate. apply String.eqb_neq in Hurl.
  rewrite Hurl, andb_false_r.
  destruct (config.DatabaseURL c =? "")%string; [ discriminate | ].
  destruct (_ && _); discriminate.
Qed.

(** X10.  The configuration that [config.New] reads from the environment
    never has an empty provider, model, local URL or server address: each
    has a default.  So [Validate] never reports a missing local URL for
    it, and accepts it exactly when [DATABASE_URL] is set and, for the
    provider [gemini], [GOOGLE_API_KEY] is set. *)
Theorem environment_configuration_has_defaults :
  forall Getenv : string -> string,
    let c := config.New Getenv in
    config.LLMProvider c <> "" /\ config.Model c <> ""
    /\ config.LocalLLMURL c <> "" /\ config.MCPServerAddr c <> ""
    /\ config.Validate c <> Some config.ErrMissingLocalLLMURL
    /\ (config.Validate c = None
        <-> Getenv "DATABASE_URL" <> ""
            /\ (config.LLMProvider c = "gemini" -> Getenv "GOOGLE_API_KEY" <> "")).
Proof.
  intros Getenv c.
  assert (Hdefault : forall key defaultVal,
             defaultVal <> "" -> config.getEnvOrDefault Getenv key defaultVal <> "").
  { intros key defaultVal Hd. unfold config.getEnvOrDefault.
    destruct (Getenv key =? "")%string eqn:E; simpl; [ exact Hd | ].
    now apply String.eqb_neq. }
  assert (Hprovider : config.LLMProvider c <> "")
    by (apply Hdefault; discriminate).
  assert (Hurl : config.LocalLLMURL c <> "") by (apply Hdefault; discriminate).
  assert (Haddr : config.MCPServerAddr c <> "") by (apply Hdefault; discriminate).
  assert (Hmodel : config.Model c <> "").
  { subst c. unfold config.New. simpl.
    destruct (Getenv "LLM_MODEL" =? "")%string eqn:E.
    - destruct (_ =? config.LLMProviderGemini)%string; discriminate.
    - now apply String.eqb_neq. }
  split; [ exact Hprovider | ]. split; [ exact Hmodel | ].
  split; [ exact Hurl | ]. split; [ exact Haddr | ].
  split; [ apply Validate_local_URL, Hurl | ].
  rewrite Validate_None_iff.
  change (config.DatabaseURL c) with (Getenv "DATABASE_URL").
  change (config.GoogleAPIKey c) with (Getenv "GOOGLE_API_KEY").
  tauto.
Qed.

(** X11.  [Validate] accepts a configuration exactly when it has a
    database URL, an API key if the provider is [gemini], and a local URL
    if the provider is [local].  A provider that is neither is accepted
    without an API key, and is not a local one: [main] takes the Gemini
    branch for it. *)
Theorem validate_checks_only_known_providers :
  forall c : config.Config,
    (config.Validate c = None
     <-> config.DatabaseURL c <> ""
         /\ (config.LLMProvider c = "gemini" -> config.GoogleAPIKey c <> "")
         /\ (config.LLMProvider c = "local" -> config.LocalLLMURL c <> ""))
    /\ (config.LLMProvider c <> "gemini" -> config.LLMProvider c <> "local" ->
        config.DatabaseURL c <> "" ->
        config.Validate c = None /\ config.IsLocalLLM c = false).
Proof.
  intros c. pose proof (Validate_None_iff c) as Hiff.
  split; [ exact Hiff | ].
  intros Hg Hl Hdb. split.
  - apply Hiff. repeat split; try assumption; intros; contradiction.
  - unfold config.IsLocalLLM. now apply String.eqb_neq.
Qed.

Lemma unknown_provider_passes :
  config.Validate
    {| config.DatabaseURL := "postgres://localhost/shop";
       config.LLMProvider := "openai"; config.GoogleAPIKey := "";
       config.Model := "gpt"; config.LocalLLMURL := "";
       config.MCPServerAddr := "localhost:9000" |} = None
  /\ config.IsLocalLLM
       {| config.DatabaseURL := "postgres://localhost/shop";
          config.LLMProvider := "openai"; config.GoogleAPIKey := "";
          config.Model := "gpt"; config.LocalLLMURL := "";
          config.MCPServerAddr := "localhost:9000" |} = false.
Proof.
  apply (proj2 (validate_checks_only_known_providers _)); discriminate.
Defined.

(* ===================================================================== *)
(** ** Further properties of the classifier *)
(* ===================================================================== *)

Section ArgmaxFacts.
Import strings math bert classifier_spec.

Variable scores : scoreMap.

(** The two loops find the same maximum and the same intent. *)
Lemma loops_agree (order : list Intent) (b1 b2 : best) :
  maxScore b1 = maxScore b2 -> bestIntent b1 = bestIntent b2 ->
  maxScore (fold_left (maxStep scores) order b1)
  = maxScore (fold_left (topTwoStep scores) order b2)
  /\ bestIntent (fold_left (maxStep scores) order b1)
     = bestIntent (fold_left (topTwoStep scores) order b2).
Proof.
  revert b1 b2. induction order as [ | intent order IH ]; intros b1 b2 Hm Hb.
  - auto.
  - cbn [fold_left]. apply IH; unfold maxStep, topTwoStep; rewrite Hm;
      destruct (Qltb (maxScore b2) (scores intent)); simpl; auto;
      destruct (Qltb (secondScore b2) (scores intent)); simpl; auto.
Qed.

(** What the loop of [Classify] has found after [order]. *)
Lemma max_loop_sound (order : list Intent) (b : best) :
  let b' := fold_left (maxStep scores) order b in
  maxScore b <= maxScore b'
  /\ (forall intent, In intent order -> scores intent <= maxScore b')
  /\ (b' = b \/ (In (bestIntent b') order
                 /\ maxScore b' = scores (bestIntent b'))).
Proof.
  revert b. induction order as [ | intent order IH ]; intros b; cbn [fold_left].
  - simpl. split; [ lra | ]. split; [ contradiction | now left ].
  - destruct (IH (maxStep scores b intent)) as (Hmono & Hall & Hbest).
    assert (Hstep : maxScore b <= maxScore (maxStep scores b intent)
                    /\ scores intent <= maxScore (maxStep scores b intent)
                    /\ (maxStep scores b intent = b
                        \/ (bestIntent (maxStep scores b intent) = intent
                            /\ maxScore (maxStep scores b intent) = scores intent))).
    { unfold maxStep. destruct (Qltb (maxScore b) (scores intent)) eqn:E; simpl.
      - apply Qltb_true in E. repeat split; try lra. now right.
      - apply Qltb_false in E. repeat split; try lra. now left. }
    destruct Hstep as (Hm & Hi & Hb). simpl. split; [ lra | ]. split.
    + intros j [<- | Hj]; [ lra | now apply Hall ].
    + destruct Hbest as [Hsame | (Hin & Heq)].
      * rewrite Hsame. destruct Hb as [-> | (Hbi & Hms)]; [ now left | ].
        right. rewrite Hbi. auto.
      * right. auto.
Qed.

(** One score strictly above all others: every order that visits its
    intent finds it. *)
Lemma max_loop_strict (target : Intent) (order : list Intent) :
  0 < scores target ->
  (forall intent, intent <> target -> scores intent < scores target) ->
  In target order ->
  bestIntent (fold_left (maxStep scores) order start) = target
  /\ maxScore (fold_left (maxStep scores) order start) == scores target.
Proof.
  intros Hpos Hbelow.
  assert (Hloop : forall order b,
             (maxScore b < scores target
              \/ (bestIntent b = target /\ maxScore b == scores target)) ->
             let b' := fold_left (maxStep scores) order b in
             (maxScore b' < scores target
              \/ (bestIntent b' = target /\ maxScore b' == scores target))
             /\ (In target order ->
                 bestIntent b' = target /\ maxScore b' == scores target)).
  { clear order. induction order as [ | intent order IH ]; intros b Hb;
      cbn [fold_left].
    - simpl. split; [ exact Hb | contradiction ].
    - assert (Hstep :
        (maxScore (maxStep scores b intent) < scores target
         \/ (bestIntent (maxStep scores b intent) = target
             /\ maxScore (maxStep scores b intent) == scores target))
        /\ (intent = target ->
            bestIntent (maxStep scores b intent) = target
            /\ maxScore (maxStep scores b intent) == scores target)).
      { unfold maxStep.
        destruct (Qltb (maxScore b) (scores intent)) eqn:E; simpl.
        - apply Qltb_true in E.
          destruct (Intent_eqb intent target) eqn:Eq.
          + assert (intent = target)
              by (destruct intent, target; try discriminate; reflexivity).
            subst intent. split; [ right | intros _ ]; split; reflexivity.
          + assert (Hne : intent <> target)
              by (intros ->; destruct target; discriminate).
            split; [ left; now apply Hbelow | intros; contradiction ].
        - apply Qltb_false in E. split; [ exact Hb | ].
          intros ->. destruct Hb as [Hb | Hb]; [ lra | exact Hb ]. }
      destruct Hstep as (Hinv & Hhit).
      destruct (IH (maxStep scores b intent) Hinv) as (Hinv' & Hseen).
      simpl. split; [ exact Hinv' | ].
      intros [-> | Hin]; [ | exact (Hseen Hin) ].
      specialize (Hhit eq_refl).
      destruct (max_loop_sound order (maxStep scores b target)) as (Hmono & _).
      simpl in Hmono.
      destruct Hinv' as [Hlt | Hgood]; [ | exact Hgood ].
      destruct Hhit as (_ & Heq). lra. }
  intros Hin. apply (Hloop order start); [ | exact Hin ].
  left. exact Hpos.
Qed.

Lemma max_loop_idle (order : list Intent) :
  (forall intent, scores intent <= 0) ->
  fold_left (maxStep scores) order start = start.
Proof.
  intros Hall. induction order as [ | intent order IH ]; [ reflexivity | ].
  cbn [fold_left]. unfold maxStep at 2.
  replace (Qltb (maxScore start) (scores intent)) with false; [ exact IH | ].
  symmetry. apply Qltb_false. apply Hall.
Qed.

Lemma Qltb_compat (x y c : Q) : x == y -> Qltb x c = Qltb y c.
Proof.
  intros H. destruct (Qltb y c) eqn:E.
  - apply Qltb_true in E. apply Qltb_true. lra.
  - apply Qltb_false in E. apply Qltb_false. lra.
Qed.

End ArgmaxFacts.

(** X12.  For one order of visiting the scores, [ClassifyWithConfidence]
    returns the intent that [Classify] returns. *)
Theorem both_classifiers_return_the_same_intent :
  forall (ToLower : string -> string) (Fields : string -> list string)
         (order : list bert.Intent) (query : string),
    fst (bert.ClassifyWithConfidence ToLower Fields order query)
    = bert.Classify ToLower Fields order query.
Proof.
  intros ToLower Fields order query.
  unfold bert.ClassifyWithConfidence, bert.Classify.
  destruct (loops_agree (bert.adjustedScores ToLower Fields query) order
              bert.start bert.start eq_refl eq_refl) as (Hmax & Hbest).
  rewrite <- Hmax, <- Hbest.
  now destruct (math.Qltb _ (1 # 10)).
Qed.

(** X13.  What [Classify] returns is justified by the scores: either it is
    the general intent and every score visited is below the threshold 0.1,
    or its adjusted score is at least 0.1 and no score visited is
    higher. *)
Theorem classified_intent_has_the_highest_score :
  forall (ToLower : string -> string) (Fields : string -> list string)
         (order : list bert.Intent) (query : string),
    let scores := bert.adjustedScores ToLower Fields query in
    let intent := bert.Classify ToLower Fields order query in
    (intent = bert.IntentGeneral
     /\ forall other, In other order -> scores other < 1 # 10)
    \/ (1 # 10 <= scores intent
        /\ forall other, In other order -> scores other <= scores intent).
Proof.
  intros ToLower Fields order query scores intent.
  subst intent. unfold bert.Classify. fold scores.
  destruct (max_loop_sound scores order bert.start) as (_ & Hall & Hbest).
  simpl in Hall, Hbest.
  set (b := fold_left (bert.maxStep scores) order bert.start) in *.
  destruct (math.Qltb (bert.maxScore b) (1 # 10)) eqn:E.
  - apply Qltb_true in E. left. split; [ reflexivity | ].
    intros other Hin. specialize (Hall other Hin). lra.
  - apply Qltb_false in E. right.
    destruct Hbest as [Hstart | (_ & Heq)].
    + rewrite Hstart in E. simpl in E. lra.
    + rewrite <- Heq. split; [ exact E | exact Hall ].
Qed.

(** X14.  When the adjusted score of one intent is strictly above the
    scores of the two others, [Classify] returns the same intent in every
    order that visits it: the order decides ties only. *)
Theorem strict_maximum_is_found_in_every_order :
  forall (ToLower : string -> string) (Fields : string -> list string)
         (order1 order2 : list bert.Intent) (query : string)
         (target : bert.Intent),
    (forall intent, intent <> target ->
       bert.adjustedScores ToLower Fields query intent
       < bert.adjustedScores ToLower Fields query target) ->
    In target order1 -> In target order2 ->
    bert.Classify ToLower Fields order1 query
    = bert.Classify ToLower Fields order2 query.
Proof.
  intros ToLower Fields order1 order2 query target Hstrict H1 H2.
  unfold bert.Classify.
  set (scores := bert.adjustedScores ToLower Fields query) in *.
  destruct (Qlt_le_dec 0 (scores target)) as [Hpos | Hneg].
  - destruct (max_loop_strict scores target order1 Hpos Hstrict H1) as (-> & E1).
    destruct (max_loop_strict scores target order2 Hpos Hstrict H2) as (-> & E2).
    rewrite (Qltb_compat _ _ _ E1), (Qltb_compat _ _ _ E2). reflexivity.
  - assert (Hall : forall intent, scores intent <= 0).
    { intros intent. destruct (bert.Intent_eqb intent target) eqn:Eq.
      - assert (intent = target)
          by (destruct intent, target; try discriminate; reflexivity).
        now subst.
      - assert (Hne : intent <> target)
          by (intros ->; destruct target; discriminate).
        specialize (Hstrict intent Hne). lra. }
    now rewrite !(max_loop_idle scores _ Hall).
Qed.

Lemma structure_query_in_two_orders :
  bert.Classify strings.asciiToLower strings.asciiFields
    [bert.IntentSQLQuery; bert.IntentVisualization; bert.IntentGeneral]
    "Explain the users table"
  = bert.Classify strings.asciiToLower strings.asciiFields
      [bert.IntentGeneral; bert.IntentVisualization; bert.IntentSQLQuery]
      "Explain the users table".
Proof.
  apply (strict_maximum_is_found_in_every_order strings.asciiToLower
           strings.asciiFields _ _ _ bert.IntentSQLQuery).
  - intros [ | | ] Hne; [ contradiction | | ]; vm_compute; reflexivity.
  - simpl. tauto.
  - simpl. tauto.
Defined.

Section ConfidenceFacts.
Import strings math bert classifier_spec.

Variable scores : scoreMap.

Ltac order_cases :=
  repeat match goal with
         | H : Qltb _ _ = true |- _ => apply Qltb_true in H
         | H : Qltb _ _ = false |- _ => apply Qltb_false in H
         end.

Lemma topTwoStep_compat (b1 b2 : best) (intent : Intent) :
  sameScores b1 b2 ->
  sameScores (topTwoStep scores b1 intent) (topTwoStep scores b2 intent).
Proof.
  intros (Hm & Hs). unfold topTwoStep, sameScores.
  destruct (Qltb (maxScore b1) (scores intent)) eqn:E1;
    destruct (Qltb (maxScore b2) (scores intent)) eqn:E2;
    destruct (Qltb (secondScore b1) (scores intent)) eqn:E3;
    destruct (Qltb (secondScore b2) (scores intent)) eqn:E4;
    simpl; order_cases; split; lra.
Qed.

Lemma topTwo_compat (order : list Intent) (b1 b2 : best) :
  sameScores b1 b2 ->
  sameScores (fold_left (topTwoStep scores) order b1)
    (fold_left (topTwoStep scores) order b2).
Proof.
  revert b1 b2. induction order as [ | intent order IH ]; intros b1 b2 H.
  - exact H.
  - cbn [fold_left]. apply IH, topTwoStep_compat, H.
Qed.

Lemma topTwoStep_ordered (b : best) (intent : Intent) :
  0 <= secondScore b /\ secondScore b <= maxScore b ->
  0 <= secondScore (topTwoStep scores b intent)
  /\ secondScore (topTwoStep scores b intent)
     <= maxScore (topTwoStep scores b intent).
Proof. intros H. exact (topTwo_ordered scores [intent] b H). Qed.

(** Visiting two scores in either order gives the same two highest. *)
Lemma topTwoStep_swap (b : best) (x y : Intent) :
  secondScore b <= maxScore b ->
  sameScores (topTwoStep scores (topTwoStep scores b x) y)
    (topTwoStep scores (topTwoStep scores b y) x).
Proof.
  intros Hb. unfold topTwoStep, sameScores.
  destruct (Qltb (maxScore b) (scores x)) eqn:Ex1;
    destruct (Qltb (maxScore b) (scores y)) eqn:Ey1;
    destruct (Qltb (secondScore b) (scores x)) eqn:Ex2;
    destruct (Qltb (secondScore b) (scores y)) eqn:Ey2;
    simpl;
    destruct (Qltb (scores x) (scores y)) eqn:Exy;
    destruct (Qltb (scores y) (scores x)) eqn:Eyx;
    simpl; rewrite ?Ex1, ?Ey1, ?Ex2, ?Ey2; simpl;
    order_cases; try (exfalso; lra); split; lra.
Qed.

Lemma sameScores_trans (b1 b2 b3 : best) :
  sameScores b1 b2 -> sameScores b2 b3 -> sameScores b1 b3.
Proof. intros (H1 & H2) (H3 & H4). split; lra. Qed.

Lemma topTwo_permutation (order1 order2 : list Intent) :
  Permutation order1 order2 ->
  forall b, 0 <= secondScore b /\ secondScore b <= maxScore b ->
  sameScores (fold_left (topTwoStep scores) order1 b)
    (fold_left (topTwoStep scores) order2 b).
Proof.
  induction 1 as [ | x l l' _ IH | x y l | l l' l'' _ IH1 _ IH2 ]; intros b Hb.
  - split; reflexivity.
  - cbn [fold_left]. apply IH, topTwoStep_ordered, Hb.
  - cbn [fold_left]. apply topTwo_compat, topTwoStep_swap. tauto.
  - eapply sameScores_trans; [ apply IH1, Hb | apply IH2, Hb ].
Qed.

Lemma confidenceOf_compat (b1 b2 : best) :
  sameScores b1 b2 -> confidenceOf b1 == confidenceOf b2.
Proof.
  intros (Hm & Hs). unfold confidenceOf, Min.
  rewrite (Qltb_compat _ _ (1 # 10) Hm).
  destruct (Qltb (maxScore b2) (1 # 10)); [ reflexivity | ].
  destruct (Qltb 0 (maxScore b1)) eqn:E1;
    destruct (Qltb 0 (maxScore b2)) eqn:E2;
    destruct (Qltb 0 (secondScore b1)) eqn:E3;
    destruct (Qltb 0 (secondScore b2)) eqn:E4;
    destruct (Qltb 1 (maxScore b1)) eqn:E5;
    destruct (Qltb 1 (maxScore b2)) eqn:E6;
    order_cases; try (exfalso; lra); try reflexivity; try lra;
    rewrite Hm, Hs; reflexivity.
Qed.

End ConfidenceFacts.

(** X15.  The confidence that [ClassifyWithConfidence] returns does not
    depend on the order in which the loop visits the scores: any two
    orders that are permutations of each other give equal confidences
    (the intent may differ, on a tie). *)
Theorem confidence_is_the_same_in_every_order :
  forall (ToLower : string -> string) (Fields : string -> list string)
         (order1 order2 : list bert.Intent) (query : string),
    Permutation order1 order2 ->
    snd (bert.ClassifyWithConfidence ToLower Fields order1 query)
    == snd (bert.ClassifyWithConfidence ToLower Fields order2 query).
Proof.
  intros ToLower Fields order1 order2 query Hperm.
  assert (Hsnd : forall order,
             snd (bert.ClassifyWithConfidence ToLower Fields order query)
             = classifier_spec.confidenceOf
                 (fold_left
                    (bert.topTwoStep (bert.adjustedScores ToLower Fields query))
                    order bert.start)).
  { intros order. unfold bert.ClassifyWithConfidence, classifier_spec.confidenceOf.
    destruct (math.Qltb _ (1 # 10)); reflexivity. }
  rewrite !Hsnd. apply confidenceOf_compat, topTwo_permutation; [ exact Hperm | ].
  simpl. lra.
Qed.

Lemma confidence_in_two_orders :
  snd (bert.ClassifyWithConfidence strings.asciiToLower strings.asciiFields
         [bert.IntentSQLQuery; bert.IntentVisualization; bert.IntentGeneral]
         "Explain the users table")
  == snd (bert.ClassifyWithConfidence strings.asciiToLower strings.asciiFields
            [bert.IntentVisualization; bert.IntentSQLQuery; bert.IntentGeneral]
            "Explain the users table").
Proof.
  apply confidence_is_the_same_in_every_order. apply perm_swap.
Defined.

(* ===================================================================== *)
(** ** Routing *)
(* ===================================================================== *)

(** X16.  [ProcessQuery] never returns an error.  The intent it reports is
    the one [Classify] returns for the same order of visiting the scores.
    The chart agent is used exactly for the visualization intent; the SQL
    agent is used for the SQL intent and for a visualization whose query
    names a data source, and then it comes before the chart agent, in the
    workflow [sql_then_chart]. *)
Theorem routing_follows_the_intent :
  forall (ToLower : string -> string) (Fields : string -> list string)
         (order : list bert.Intent) (query : string),
    let r := fst (manager.ProcessQuery ToLower Fields order query) in
    snd (manager.ProcessQuery ToLower Fields order query) = None
    /\ manager.ClassifiedIntent r
       = manager.intentString (bert.Classify ToLower Fields order query)
    /\ (In "ChartAgent" (manager.AgentsUsed r)
        <-> manager.ClassifiedIntent r = "visualization")
    /\ (In "SQLAgent" (manager.AgentsUsed r)
        <-> manager.ClassifiedIntent r = "sql_query"
            \/ (manager.ClassifiedIntent r = "visualization"
                /\ manager.needsDataFetch ToLower query = true))
    /\ (manager.AgentsUsed r = ["SQLAgent"; "ChartAgent"]
        <-> manager.Workflow r = "sql_then_chart")
    /\ (manager.AgentsUsed r = ["ManagerAgent"]
        <-> manager.ClassifiedIntent r = "general").
Proof.
  intros ToLower Fields order query r. subst r.
  pose proof (loops_agree (bert.adjustedScores ToLower Fields query) order
                bert.start bert.start eq_refl eq_refl) as (Hmax & Hbest).
  unfold manager.ProcessQuery, bert.Classify, bert.ClassifyWithConfidence.
  rewrite Hmax, Hbest.
  set (b := fold_left
              (bert.topTwoStep (bert.adjustedScores ToLower Fields query))
              order bert.start).
  destruct (math.Qltb (bert.maxScore b) (1 # 10));
    [ | destruct (bert.bestIntent b) ];
    try destruct (manager.needsDataFetch ToLower query) eqn:E;
    simpl; repeat split; intros;
    repeat match goal with
           | H : _ \/ _ |- _ => destruct H
           | H : _ /\ _ |- _ => destruct H
           end;
    try discriminate; try contradiction; auto.
Qed.

(* ===================================================================== *)
(** ** The ceiling of the value axis *)
(* ===================================================================== *)

Section CeilingFacts.
Import math chart.

Lemma toInt_floor (x : Q) :
  0 <= x -> inject_Z (toInt x) <= x /\ x < inject_Z (toInt x + 1).
Proof.
  intros Hx. unfold toInt.
  assert (Hnum : (0 <= Qnum x)%Z).
  { destruct x as [n d]. unfold Qle in Hx. simpl in *. lia. }
  rewrite Z.quot_div_nonneg by (try exact Hnum; reflexivity).
  pose proof (Qfloor_le x) as Hle. pose proof (Qlt_floor x) as Hlt.
  destruct x as [n d]. exact (conj Hle Hlt).
Qed.

Lemma maxValue_fold (data : list Q) (start : Q) :
  let m := fold_left (fun maxVal v => if Qltb maxVal v then v else maxVal)
             data start in
  start <= m /\ (forall v, In v data -> v <= m)
  /\ (m = start \/ In m data).
Proof.
  revert start. induction data as [ | x data IH ]; intros start; simpl.
  - split; [ lra | ]. split; [ contradiction | now left ].
  - destruct (IH (if Qltb start x then x else start)) as (Hge & Hall & Hin).
    destruct (Qltb start x) eqn:E.
    + apply Qltb_true in E. split; [ lra | ]. split.
      * intros v [<- | Hv]; [ exact Hge | now apply Hall ].
      * destruct Hin as [-> | Hin]; auto.
    + apply Qltb_false in E. split; [ exact Hge | ]. split.
      * intros v [<- | Hv]; [ lra | now apply Hall ].
      * destruct Hin as [-> | Hin]; auto.
Qed.

Lemma roundUpNice_bounds (val : Q) :
  val <= roundUpNice val /\ 10 <= roundUpNice val
  /\ (val <= 1000 ->
      roundUpNice val = 10 \/ roundUpNice val = 50 \/ roundUpNice val = 100
      \/ roundUpNice val = 500 \/ roundUpNice val = 1000)
  /\ (1000 < val ->
      roundUpNice val = inject_Z (toInt (val / 1000) + 1) * 1000
      /\ val < roundUpNice val /\ roundUpNice val <= val + 1000).
Proof.
  unfold roundUpNice.
  destruct (Qle_bool val 10) eqn:E1;
    [ apply Qle_bool_iff in E1; repeat split; try lra; auto | ].
  destruct (Qle_bool val 50) eqn:E2;
    [ apply Qle_bool_iff in E2; repeat split; try lra; auto | ].
  destruct (Qle_bool val 100) eqn:E3;
    [ apply Qle_bool_iff in E3; repeat split; try lra; auto | ].
  destruct (Qle_bool val 500) eqn:E4;
    [ apply Qle_bool_iff in E4; repeat split; try lra; auto 6 | ].
  destruct (Qle_bool val 1000) eqn:E5;
    [ apply Qle_bool_iff in E5; repeat split; try lra; auto 6 | ].
  assert (Hbig : 1000 < val).
  { apply Qnot_le_lt. intros H. apply Qle_bool_iff in H. congruence. }
  assert (Hq : val == val / 1000 * 1000) by (field).
  destruct (toInt_floor (val / 1000)) as (Hlo & Hhi).
  { apply Qle_shift_div_l; lra. }
  split; [ | split; [ | split; [ intros; lra | intros _ ] ] ];
    [ | | split; [ reflexivity | ] ];
    rewrite inject_Z_plus in *; change (inject_Z 1) with 1 in *;
    try split; lra.
Qed.

End CeilingFacts.



(** X18.  The upper end of the value axis that the bar chart and the line
    chart print is at least 10 and at least every value of the series
    (for values in the range of [int]): no bar and no point lies above the
    axis. *)
Theorem axis_covers_every_value :
  forall (data : list Q) (v : Q),
    (forall x, In x data -> x <= 9000000000000000000) ->
    In v data ->
    v <= chart.axisMax data /\ 10 <= chart.axisMax data.
Proof.
  intros data v _ Hin. unfold chart.axisMax, chart.maxValue.
  destruct (maxValue_fold data 0) as (_ & Hall & _). simpl in Hall.
  specialize (Hall v Hin).
  destruct (roundUpNice_bounds
              (fold_left (fun maxVal x => if math.Qltb maxVal x then x else maxVal)
                 data 0)) as (Hge & Hten & _).
  split; [ lra | exact Hten ].
Qed.

Lemma axis_of_sample_series :
  135 <= chart.axisMax [42; 135; 7] /\ 10 <= chart.axisMax [42; 135; 7].
Proof.
  apply axis_covers_every_value.
  - intros x [<- | [<- | [<- | []]]]; vm_compute; discriminate.
  - simpl. tauto.
Defined.

(* ===================================================================== *)
(** ** The tests of the classifier *)
(* ===================================================================== *)

(** X19.  The two tests of the classifier pass in each of the six orders in
    which the loops can visit the three scores: although [Classify] depends
    on the iteration order of the map on a tie, the outcome of the tests
    does not. *)
Theorem classifier_tests_pass_in_every_order :
  forallb bert_test.TestClassifier_Classify classifier_spec.orders = true
  /\ forallb bert_test.TestClassifier_ClassifyWithConfidence
       classifier_spec.orders = true.
Proof. split; vm_compute; reflexivity. Qed.

(* ===================================================================== *)
(** ** Usage counters *)
(* ===================================================================== *)

(** X20.  The usage counters of a decoded response are the token counts of
    the wire response converted to [int32]: equal to them when they are
    below 2^31 and not negative, and in every case within the range of
    [int32] and congruent to them modulo 2^32. *)
Theorem usage_counters_are_the_token_counts :
  forall (Unmarshal : string -> JSON.object * bool)
         (chatResp : localllm.chatResponse) (choice : localllm.choice)
         (rest : list localllm.choice),
    localllm.Choices chatResp = choice :: rest ->
    exists counters,
      model.Usage (localllm.convertToLLMResponse Unmarshal chatResp)
      = Some counters
      /\ facts.int32Of (localllm.PromptTokens (localllm.Usage chatResp))
           (model.PromptTokenCount counters)
      /\ facts.int32Of (localllm.CompletionTokens (localllm.Usage chatResp))
           (model.CandidatesTokenCount counters)
      /\ facts.int32Of (localllm.TotalTokens (localllm.Usage chatResp))
           (model.TotalTokenCount counters).
Proof.
  intros Unmarshal chatResp choice rest Hchoices.
  unfold localllm.convertToLLMResponse. rewrite Hchoices.
  eexists. split; [ reflexivity | ].
  assert (Hint : forall n, facts.int32Of n (localllm.toInt32 n)).
  { intros n. unfold facts.int32Of, localllm.toInt32.
    pose proof (Z.mod_pos_bound (n + 2147483648) 4294967296 eq_refl) as Hb.
    split; [ lia | ]. split.
    - replace ((n + 2147483648) mod 4294967296 - 2147483648 - n)%Z
        with ((n + 2147483648) mod 4294967296 - (n + 2147483648))%Z by lia.
      rewrite Zminus_mod, Zmod_mod, <- Zminus_mod, Z.sub_diag.
      reflexivity.
    - intros Hn. rewrite Z.mod_small by lia. lia. }
  simpl. repeat split; apply Hint.
Qed.

Lemma usage_of_broken_arguments :
  exists counters,
    model.Usage
      (localllm.convertToLLMResponse sample.unmarshalEmptyObject
         sample.brokenArguments) = Some counters
    /\ model.TotalTokenCount counters = 0%Z.
Proof.
  destruct (usage_counters_are_the_token_counts sample.unmarshalEmptyObject
              sample.brokenArguments _ _ eq_refl)
    as (counters & Heq & _ & _ & (_ & _ & H)).
  exists counters. split; [ exact Heq | ].
  apply H. simpl. lia.
Defined.
